(** * MPC to line: the controller of [src/mpc_to_line/src/MPC.cpp]

    A shallow embedding of the trajectory evaluator [FG_eval], of
    [MPC::Solve], of [polyeval], [polyfit], [transform_map_coord] and
    [main], with the properties of the design document stated against
    it.

    Conventions of the embedding.
    - [double] and [AD<double>] are the real numbers: rounding is not
      modelled, and the transcendental functions are those of the
      standard library of reals.
    - [size_t] is [Z] reduced modulo [2^64]; [int] loop counters are [Z].
    - [std::vector], [Eigen::VectorXd] and the CppAD test vectors are
      lists; an access outside the vector stops the run with
      [OutOfRange].
    - [assert] and [exit] stop the run with [AssertionFailed] and [Exit].
    - Console output is not modelled. *)

From Stdlib Require Import ZArith List String Bool Lia Reals Lra.
Import ListNotations.

Open Scope Z_scope.

(** ** Machine integers *)

Definition SIZE_MODULUS : Z := 2 ^ 64.

(** The value of a [size_t] expression whose mathematical value is [z]. *)
Definition sz (z : Z) : Z := z mod SIZE_MODULUS.

Definition INT_MAX : Z := 2147483647.

Definition EXIT_FAILURE : Z := 1.

(** ** Outcomes of a run *)

Inductive outcome (A : Type) : Type :=
| Ok (a : A)
| OutOfRange (vector : string) (index : Z)
| AssertionFailed (condition : string)
| Exit (status : Z).

Arguments Ok {A} a.
Arguments OutOfRange {A} vector index.
Arguments AssertionFailed {A} condition.
Arguments Exit {A} status.

Definition bind {A B : Type} (m : outcome A) (k : A -> outcome B) : outcome B :=
  match m with
  | Ok a => k a
  | OutOfRange v i => OutOfRange v i
  | AssertionFailed c => AssertionFailed c
  | Exit s => Exit s
  end.

Notation "x <- m ;; k" := (bind m (fun x => k))
  (at level 61, m at next level, right associativity).

Notation "' pat <- m ;; k" := (bind m (fun x => match x with pat => k end))
  (at level 61, pat pattern, m at next level, right associativity).

(** Control comes back to the caller with a value. *)
Definition returns_to_caller {A : Type} (o : outcome A) : Prop :=
  exists a, o = Ok a.

(** The process is ended from inside the call. *)
Definition terminates_process {A : Type} (o : outcome A) : Prop :=
  (exists s, o = Exit s) \/ (exists c, o = AssertionFailed c).

(** ** Vectors *)

Definition vector := list R.

Definition size (v : vector) : Z := Z.of_nat (List.length v).

Definition in_range (v : vector) (i : Z) : bool := (0 <=? i) && (i <? size v).

(** [v[i]] read. *)
Definition vget (name : string) (v : vector) (i : Z) : outcome R :=
  if in_range v i then Ok (nth (Z.to_nat i) v 0%R) else OutOfRange name i.

Fixpoint list_update (v : vector) (n : nat) (x : R) : vector :=
  match v, n with
  | [], _ => []
  | _ :: t, O => x :: t
  | h :: t, S n' => h :: list_update t n' x
  end.

(** [v[i] = x]. *)
Definition vset (name : string) (v : vector) (i : Z) (x : R) : outcome vector :=
  if in_range v i then Ok (list_update v (Z.to_nat i) x) else OutOfRange name i.

(** [v[i] += x]. *)
Definition vadd (name : string) (v : vector) (i : Z) (x : R) : outcome vector :=
  old <- vget name v i ;;
  vset name v i (old + x)%R.

(** The entry of [v] at [i], for statements about vectors already built. *)
Definition at_index (v : vector) (i : Z) : R := nth (Z.to_nat i) v 0%R.

(** ** Counted loops: [for (int i = lo; i < hi; i++) body] *)

Fixpoint for_from {St : Type} (fuel : nat) (i : Z)
    (body : Z -> St -> outcome St) (s : St) : outcome St :=
  match fuel with
  | O => Ok s
  | S fuel' => s' <- body i s ;; for_from fuel' (i + 1) body s'
  end.

Definition for_loop {St : Type} (lo hi : Z)
    (body : Z -> St -> outcome St) (s : St) : outcome St :=
  for_from (Z.to_nat (hi - lo)) lo body s.

(** ** The horizon and the layout of the decision vector *)

(** [const double Lf = 2.67]. *)
Definition Lf : R := 2.67.

Section Horizon.

(** The globals [N], [dt], [ref_cte], [ref_epsi] and [ref_v] of the
    source; their initial values are in [Baseline] below. *)
Variable N : Z.
Variable dt : R.
Variables ref_cte ref_epsi ref_v : R.

Definition x_start : Z := 0.
Definition y_start : Z := sz (x_start + N).
Definition psi_start : Z := sz (y_start + N).
Definition v_start : Z := sz (psi_start + N).
Definition cte_start : Z := sz (v_start + N).
Definition epsi_start : Z := sz (cte_start + N).
Definition delta_start : Z := sz (epsi_start + N).
Definition a_start : Z := sz (delta_start + N - 1).

(** [size_t n_vars = N * 6 + (N - 1) * 2] and
    [size_t n_constraints = N * 6] of [MPC::Solve]. *)
Definition n_vars : Z := sz (N * 6 + sz (N - 1) * 2).
Definition n_constraints : Z := sz (N * 6).

(** ** [FG_eval::operator()] *)

(** Body of the loop over the reference state, lines 64-68. *)
Definition cost_reference (vars : vector) (i : Z) (fg : vector) : outcome vector :=
  cte <- vget "vars" vars (sz (cte_start + i)) ;;
  fg <- vadd "fg" fg 0 (pow (cte - ref_cte) 2) ;;
  epsi <- vget "vars" vars (sz (epsi_start + i)) ;;
  fg <- vadd "fg" fg 0 (pow (epsi - ref_epsi) 2) ;;
  v <- vget "vars" vars (sz (v_start + i)) ;;
  vadd "fg" fg 0 (pow (v - ref_v) 2).

(** Body of the loop over the actuators, lines 71-74. *)
Definition cost_actuators (vars : vector) (i : Z) (fg : vector) : outcome vector :=
  delta <- vget "vars" vars (sz (delta_start + i)) ;;
  fg <- vadd "fg" fg 0 (pow delta 2) ;;
  a <- vget "vars" vars (sz (a_start + i)) ;;
  vadd "fg" fg 0 (pow a 2).

(** Body of the loop over sequential actuations, lines 77-80. *)
Definition cost_gaps (vars : vector) (i : Z) (fg : vector) : outcome vector :=
  delta1 <- vget "vars" vars (sz (delta_start + i + 1)) ;;
  delta0 <- vget "vars" vars (sz (delta_start + i)) ;;
  fg <- vadd "fg" fg 0 (pow (delta1 - delta0) 2) ;;
  a1 <- vget "vars" vars (sz (a_start + i + 1)) ;;
  a0 <- vget "vars" vars (sz (a_start + i)) ;;
  vadd "fg" fg 0 (pow (a1 - a0) 2).

(** One initial constraint, [fg[1 + start] = vars[start]]. *)
Definition initial_constraint (vars : vector) (start : Z) (fg : vector) : outcome vector :=
  s <- vget "vars" vars start ;;
  vset "fg" fg (sz (1 + start)) s.

(** The six initial constraints, lines 92-97. *)
Definition initial_constraints (vars : vector) (fg : vector) : outcome vector :=
  fg <- initial_constraint vars x_start fg ;;
  fg <- initial_constraint vars y_start fg ;;
  fg <- initial_constraint vars psi_start fg ;;
  fg <- initial_constraint vars v_start fg ;;
  fg <- initial_constraint vars cte_start fg ;;
  initial_constraint vars epsi_start fg.

(** Body of the loop over the model constraints, lines 100-142. *)
Definition model_constraints (coeffs vars : vector) (i : Z) (fg : vector)
    : outcome vector :=
  x1 <- vget "vars" vars (sz (x_start + i + 1)) ;;
  y1 <- vget "vars" vars (sz (y_start + i + 1)) ;;
  psi1 <- vget "vars" vars (sz (psi_start + i + 1)) ;;
  v1 <- vget "vars" vars (sz (v_start + i + 1)) ;;
  cte1 <- vget "vars" vars (sz (cte_start + i + 1)) ;;
  epsi1 <- vget "vars" vars (sz (epsi_start + i + 1)) ;;
  x0 <- vget "vars" vars (sz (x_start + i)) ;;
  y0 <- vget "vars" vars (sz (y_start + i)) ;;
  psi0 <- vget "vars" vars (sz (psi_start + i)) ;;
  v0 <- vget "vars" vars (sz (v_start + i)) ;;
  cte0 <- vget "vars" vars (sz (cte_start + i)) ;;
  epsi0 <- vget "vars" vars (sz (epsi_start + i)) ;;
  delta0 <- vget "vars" vars (sz (delta_start + i)) ;;
  a0 <- vget "vars" vars (sz (a_start + i)) ;;
  c0 <- vget "coeffs" coeffs 0 ;;
  c1 <- vget "coeffs" coeffs 1 ;;
  c2 <- vget "coeffs" coeffs 2 ;;
  c3 <- vget "coeffs" coeffs 3 ;;
  let f0 := (c0 + c1 * x0 + c2 * pow x0 2 + c3 * pow x0 3)%R in
  c1' <- vget "coeffs" coeffs 1 ;;
  c2' <- vget "coeffs" coeffs 2 ;;
  c3' <- vget "coeffs" coeffs 3 ;;
  let psides0 := atan (c1' + 2 * c2' * x0 + 3 * c3' * pow x0 2)%R in
  fg <- vset "fg" fg (sz (2 + x_start + i)) (x1 - (x0 + v0 * cos psi0 * dt))%R ;;
  fg <- vset "fg" fg (sz (2 + y_start + i)) (y1 - (y0 + v0 * sin psi0 * dt))%R ;;
  fg <- vset "fg" fg (sz (2 + psi_start + i)) (psi1 - (psi0 + v0 * delta0 / Lf * dt))%R ;;
  fg <- vset "fg" fg (sz (2 + v_start + i)) (v1 - (v0 + a0 * dt))%R ;;
  fg <- vset "fg" fg (sz (2 + cte_start + i))
          (cte1 - ((f0 - y0) + (v0 * sin epsi0 * dt)))%R ;;
  vset "fg" fg (sz (2 + epsi_start + i))
          (epsi1 - ((psi0 - psides0) + v0 * delta0 / Lf * dt))%R.

(** Lines 61-80: the cost is accumulated in [fg[0]]. *)
Definition FG_eval_cost (vars : vector) (fg : vector) : outcome vector :=
  fg <- vset "fg" fg 0 0%R ;;
  fg <- for_loop 0 N (cost_reference vars) fg ;;
  fg <- for_loop 0 (sz (N - 1)) (cost_actuators vars) fg ;;
  for_loop 0 (sz (N - 2)) (cost_gaps vars) fg.

(** [void operator()(ADvector& fg, const ADvector& vars)]: the new
    contents of [fg]. The cost, lines 61-80; the initial constraints,
    lines 92-97; the rest of the constraints, lines 100-142. *)
Definition FG_eval (coeffs : vector) (fg vars : vector) : outcome vector :=
  fg <- FG_eval_cost vars fg ;;
  fg <- initial_constraints vars fg ;;
  for_loop 0 (sz (N - 1)) (model_constraints coeffs vars) fg.

End Horizon.

(** ** The solver interface ([cppad/ipopt/solve.hpp], an external library) *)

(** [CppAD::ipopt::solve_result<Dvector>::status_type]. *)
Inductive status_type : Type :=
| not_defined
| success
| maxiter_exceeded
| stop_at_tiny_step
| stop_at_acceptable_point
| local_infeasibility
| user_requested_stop
| feasible_point_found
| diverging_iterates
| restoration_failure
| error_in_step_computation
| invalid_number_detected
| too_few_degrees_of_freedom
| internal_error
| unknown.

Definition is_success (s : status_type) : bool :=
  match s with
  | success => true
  | _ => false
  end.

(** The fields of [solve_result] that [MPC::Solve] reads. *)
Module solve_result.
Record t : Type := make { status : status_type; x : vector; obj_value : R }.
End solve_result.

(** The type of the evaluator handed to the solver: [fg_eval(fg, vars)]. *)
Definition evaluator : Type := vector -> vector -> outcome vector.

(** [CppAD::ipopt::solve(options, xi, xl, xu, gl, gu, fg_eval, solution)]. *)
Definition solver : Type :=
  string -> vector -> vector -> vector -> vector -> vector -> evaluator ->
  solve_result.t.

(** The bounds and the starting point handed to the solver. *)
Module problem.
Record t : Type := make {
  vars : vector;
  vars_lowerbound : vector;
  vars_upperbound : vector;
  constraints_lowerbound : vector;
  constraints_upperbound : vector
}.
End problem.

Definition newline : string := String (Ascii.ascii_of_nat 10) EmptyString.

(** The option text of [MPC::Solve], lines 237-241. *)
Definition options : string :=
  ("Integer print_level  0" ++ newline ++
   "Sparse  true        forward" ++ newline ++
   "Sparse  true        reverse" ++ newline ++
   "Numeric max_cpu_time          0.5" ++ newline)%string.

(** ** [MPC::Solve] *)

Section Solve.

Variable N : Z.
Variable dt : R.
Variables ref_cte ref_epsi ref_v : R.

(** What a vector holds before it is written: [Dvector v(n)] does not
    initialise its elements. *)
Variable indeterminate : R.

Variable ipopt_solve : solver.

Definition Dvector (n : Z) : vector := repeat indeterminate (Z.to_nat n).

(** Body of the loops of lines 190-208 and 215-218: the lower and the
    upper limit at [i] are written. *)
Definition set_bounds (lname uname : string) (lower upper : R) (i : Z)
    (b : vector * vector) : outcome (vector * vector) :=
  let '(lowerbound, upperbound) := b in
  lowerbound <- vset lname lowerbound i lower ;;
  upperbound <- vset uname upperbound i upper ;;
  Ok (lowerbound, upperbound).

(** Lines 157-231 of [MPC::Solve]: the starting point and the bounds. *)
Definition Solve_setup (x0 : vector) : outcome problem.t :=
  x <- vget "x0" x0 0 ;;
  y <- vget "x0" x0 1 ;;
  psi <- vget "x0" x0 2 ;;
  v <- vget "x0" x0 3 ;;
  cte <- vget "x0" x0 4 ;;
  epsi <- vget "x0" x0 5 ;;
  let n_vars := n_vars N in
  let n_constraints := n_constraints N in
  vars <- for_loop 0 n_vars (fun i vars => vset "vars" vars i 0.0%R)
            (Dvector n_vars) ;;
  vars <- vset "vars" vars x_start x ;;
  vars <- vset "vars" vars (y_start N) y ;;
  vars <- vset "vars" vars (psi_start N) psi ;;
  vars <- vset "vars" vars (v_start N) v ;;
  vars <- vset "vars" vars (cte_start N) cte ;;
  vars <- vset "vars" vars (epsi_start N) epsi ;;
  b <- for_loop 0 (delta_start N)
         (set_bounds "vars_lowerbound" "vars_upperbound" (-1.0e19) 1.0e19)
         (Dvector n_vars, Dvector n_vars) ;;
  b <- for_loop (delta_start N) (a_start N)
         (set_bounds "vars_lowerbound" "vars_upperbound" (-0.436332) 0.436332)
         b ;;
  b <- for_loop (a_start N) n_vars
         (set_bounds "vars_lowerbound" "vars_upperbound" (-1.0) 1.0) b ;;
  let '(vars_lowerbound, vars_upperbound) := b in
  c <- for_loop 0 n_constraints
         (set_bounds "constraints_lowerbound" "constraints_upperbound" 0 0)
         (Dvector n_constraints, Dvector n_constraints) ;;
  let '(constraints_lowerbound, constraints_upperbound) := c in
  cl <- vset "constraints_lowerbound" constraints_lowerbound x_start x ;;
  cl <- vset "constraints_lowerbound" cl (y_start N) y ;;
  cl <- vset "constraints_lowerbound" cl (psi_start N) psi ;;
  cl <- vset "constraints_lowerbound" cl (v_start N) v ;;
  cl <- vset "constraints_lowerbound" cl (cte_start N) cte ;;
  cl <- vset "constraints_lowerbound" cl (epsi_start N) epsi ;;
  cu <- vset "constraints_upperbound" constraints_upperbound x_start x ;;
  cu <- vset "constraints_upperbound" cu (y_start N) y ;;
  cu <- vset "constraints_upperbound" cu (psi_start N) psi ;;
  cu <- vset "constraints_upperbound" cu (v_start N) v ;;
  cu <- vset "constraints_upperbound" cu (cte_start N) cte ;;
  cu <- vset "constraints_upperbound" cu (epsi_start N) epsi ;;
  Ok (problem.make vars vars_lowerbound vars_upperbound cl cu).

(** Body of the loop of lines 259-262: one point of the predicted path
    is pushed on [mpc_x] and on [mpc_y]. *)
Definition push_prediction (solution : solve_result.t) (i : Z)
    (m : vector * vector) : outcome (vector * vector) :=
  let '(mpc_x, mpc_y) := m in
  px <- vget "solution.x" (solve_result.x solution) (sz (x_start + i)) ;;
  py <- vget "solution.x" (solve_result.x solution) (sz (y_start N + i)) ;;
  Ok (mpc_x ++ [px], mpc_y ++ [py]).

(** Lines 254-271 of [MPC::Solve]: what is done with the solver's answer.
    The value is the returned vector with the final [mpc_x] and [mpc_y]. *)
Definition Solve_finish (solution : solve_result.t) (mpc_x mpc_y : vector)
    : outcome (vector * vector * vector) :=
  let ok := true in
  let ok := ok && is_success (solve_result.status solution) in
  let cost := solve_result.obj_value solution in
  m <- for_loop 0 N (push_prediction solution) (mpc_x, mpc_y) ;;
  let '(mpc_x, mpc_y) := m in
  if negb ok then Exit EXIT_FAILURE
  else
    let sx := solve_result.x solution in
    r0 <- vget "solution.x" sx (sz (x_start + 1)) ;;
    r1 <- vget "solution.x" sx (sz (y_start N + 1)) ;;
    r2 <- vget "solution.x" sx (sz (psi_start N + 1)) ;;
    r3 <- vget "solution.x" sx (sz (v_start N + 1)) ;;
    r4 <- vget "solution.x" sx (sz (cte_start N + 1)) ;;
    r5 <- vget "solution.x" sx (sz (epsi_start N + 1)) ;;
    r6 <- vget "solution.x" sx (delta_start N) ;;
    r7 <- vget "solution.x" sx (a_start N) ;;
    Ok ([r0; r1; r2; r3; r4; r5; r6; r7; cost], mpc_x, mpc_y).

(** Lines 233-249: the evaluator is built from [coeffs] and the solver
    is called on the starting point and the bounds. *)
Definition solve_problem (coeffs : vector) (p : problem.t) : solve_result.t :=
  let fg_eval := FG_eval N dt ref_cte ref_epsi ref_v coeffs in
  ipopt_solve options (problem.vars p)
    (problem.vars_lowerbound p) (problem.vars_upperbound p)
    (problem.constraints_lowerbound p) (problem.constraints_upperbound p)
    fg_eval.

(** [vector<double> MPC::Solve(x0, coeffs, mpc_x, mpc_y)]. *)
Definition Solve (x0 coeffs mpc_x mpc_y : vector)
    : outcome (vector * vector * vector) :=
  p <- Solve_setup x0 ;;
  let solution := solve_problem coeffs p in
  Solve_finish solution mpc_x mpc_y.

End Solve.

(** ** [polyeval] *)

(** Lines 279-285: [result += coeffs[i] * pow(x, i)] for every [i]. *)
Definition polyeval (coeffs : vector) (x : R) : outcome R :=
  for_loop 0 (size coeffs)
    (fun i result =>
       c <- vget "coeffs" coeffs i ;;
       Ok (result + c * x ^ Z.to_nat i)%R)
    0.0%R.

(** ** [polyfit] *)

Definition matrix := list vector.

Definition rows (A : matrix) : Z := Z.of_nat (List.length A).

(** [A(i, j)] read. *)
Definition mget (A : matrix) (i j : Z) : outcome R :=
  if (0 <=? i) && (i <? rows A)
  then vget "A" (nth (Z.to_nat i) A []) j
  else OutOfRange "A" i.

Fixpoint row_update (A : matrix) (n : nat) (r : vector) : matrix :=
  match A, n with
  | [], _ => []
  | _ :: t, O => r :: t
  | h :: t, S n' => h :: row_update t n' r
  end.

(** [A(i, j) = x]. *)
Definition mset (A : matrix) (i j : Z) (x : R) : outcome matrix :=
  if (0 <=? i) && (i <? rows A)
  then r <- vset "A" (nth (Z.to_nat i) A []) j x ;;
       Ok (row_update A (Z.to_nat i) r)
  else OutOfRange "A" i.

Section Polyfit.

Variable indeterminate : R.

(** [A.householderQr().solve(yvals)] of Eigen, an external library. *)
Variable householderQr_solve : matrix -> vector -> vector.

(** [Eigen::MatrixXd A(r, c)]: the entries are not initialised. *)
Definition MatrixXd (r c : Z) : matrix :=
  repeat (repeat indeterminate (Z.to_nat c)) (Z.to_nat r).

(** Line 302, [A(j, i + 1) = A(j, i) * xvals(j)]. *)
Definition next_power (xvals : vector) (j i : Z) (A : matrix) : outcome matrix :=
  a <- mget A j i ;;
  xj <- vget "xvals" xvals j ;;
  mset A j (i + 1) (a * xj)%R.

Definition polyfit (xvals yvals : vector) (order : Z) : outcome vector :=
  if negb (size xvals =? size yvals)
  then AssertionFailed "xvals.size() == yvals.size()"
  else if negb ((1 <=? order) && (order <=? size xvals - 1))
  then AssertionFailed "order >= 1 && order <= xvals.size() - 1"
  else
    let A := MatrixXd (size xvals) (order + 1) in
    A <- for_loop 0 (size xvals) (fun i A => mset A i 0 1.0%R) A ;;
    A <- for_loop 0 (size xvals)
           (fun j A => for_loop 0 order (next_power xvals j) A) A ;;
    Ok (householderQr_solve A yvals).

End Polyfit.

(** ** [transform_map_coord] *)

Definition M_PI : R := PI.

(** Body of the loop of lines 317-329. *)
Definition transform_point (xvals yvals : vector)
    (vehicle_x vehicle_y vehicle_theta : R) (i : Z) (t : vector * vector)
    : outcome (vector * vector) :=
  let '(transformed_x, transformed_y) := t in
  let cos_theta := cos (vehicle_theta - M_PI / 2) in
  let sin_theta := sin (vehicle_theta - M_PI / 2) in
  xi <- vget "xvals" xvals i ;;
  yi <- vget "yvals" yvals i ;;
  let new_x := (- (xi - vehicle_x) * sin_theta + (yi - vehicle_y) * cos_theta)%R in
  let new_y := (- (xi - vehicle_x) * cos_theta - (yi - vehicle_y) * sin_theta)%R in
  Ok (transformed_x ++ [new_x], transformed_y ++ [new_y]).

(** The new contents of [xvals] and [yvals]. *)
Definition transform_map_coord (xvals yvals : vector)
    (vehicle_x vehicle_y vehicle_theta : R) : outcome (vector * vector) :=
  let total_size := size xvals in
  for_loop 0 total_size
    (transform_point xvals yvals vehicle_x vehicle_y vehicle_theta) ([], []).

(** ** The formulas of the design document *)

(** [sum_upto n f] is [f 0 + ... + f (n - 1)]. *)
Fixpoint sum_upto (n : nat) (f : Z -> R) : R :=
  match n with
  | O => 0%R
  | S k => (sum_upto k f + f (Z.of_nat k))%R
  end.

(** Every loop counter of the source is an [int]: the largest bound it is
    compared with, [n_vars], has to be one. *)
Definition horizon_fits (N : Z) : Prop := N * 6 + (N - 1) * 2 <= INT_MAX.

Section Formulas.

Variable N : Z.
Variable dt : R.
Variables ref_cte ref_epsi ref_v : R.
Variable coeffs : vector.
Variable vars : vector.

(** The blocks of the decision vector, by the layout of section 3:
    [N] entries each for x, y, psi, v, cte, epsi, then [N - 1] for delta
    and [N - 1] for a. *)
Definition x_ (i : Z) : R := at_index vars (0 * N + i).
Definition y_ (i : Z) : R := at_index vars (1 * N + i).
Definition psi_ (i : Z) : R := at_index vars (2 * N + i).
Definition v_ (i : Z) : R := at_index vars (3 * N + i).
Definition cte_ (i : Z) : R := at_index vars (4 * N + i).
Definition epsi_ (i : Z) : R := at_index vars (5 * N + i).
Definition delta_ (i : Z) : R := at_index vars (6 * N + i).
Definition a_ (i : Z) : R := at_index vars (6 * N + (N - 1) + i).

(** The three sums of section 4.3. *)
Definition tracking_cost : R :=
  sum_upto (Z.to_nat N)
    (fun i => (cte_ i - ref_cte) ^ 2 + (epsi_ i - ref_epsi) ^ 2
              + (v_ i - ref_v) ^ 2)%R.

Definition actuation_cost : R :=
  sum_upto (Z.to_nat (N - 1)) (fun i => (delta_ i) ^ 2 + (a_ i) ^ 2)%R.

Definition smoothness_cost : R :=
  sum_upto (Z.to_nat (N - 2))
    (fun i => (delta_ (i + 1) - delta_ i) ^ 2 + (a_ (i + 1) - a_ i) ^ 2)%R.

Definition cost_formula : R :=
  (tracking_cost + actuation_cost + smoothness_cost)%R.

(** The reference curve of degree three and its slope. *)
Definition curve (x : R) : R :=
  (at_index coeffs 0 + at_index coeffs 1 * x + at_index coeffs 2 * x ^ 2
   + at_index coeffs 3 * x ^ 3)%R.

Definition slope (x : R) : R :=
  (at_index coeffs 1 + 2 * at_index coeffs 2 * x
   + 3 * at_index coeffs 3 * x ^ 2)%R.

Definition psides (i : Z) : R := atan (slope (x_ i)).

(** The six update equations of section 4.3, as left side minus right
    side. *)
Definition residual_x (i : Z) : R :=
  (x_ (i + 1) - (x_ i + v_ i * cos (psi_ i) * dt))%R.
Definition residual_y (i : Z) : R :=
  (y_ (i + 1) - (y_ i + v_ i * sin (psi_ i) * dt))%R.
Definition residual_psi (i : Z) : R :=
  (psi_ (i + 1) - (psi_ i + v_ i / Lf * delta_ i * dt))%R.
Definition residual_v (i : Z) : R :=
  (v_ (i + 1) - (v_ i + a_ i * dt))%R.
Definition residual_cte (i : Z) : R :=
  (cte_ (i + 1) - ((curve (x_ i) - y_ i) + v_ i * sin (epsi_ i) * dt))%R.
Definition residual_epsi (i : Z) : R :=
  (epsi_ (i + 1) - ((psi_ i - psides i) + v_ i * delta_ i / Lf * dt))%R.

End Formulas.

(** The residual written for block [b] at step [i]. *)
Definition residual (N : Z) (dt : R) (coeffs vars : vector) (b i : Z) : R :=
  match b with
  | 0 => residual_x N dt vars i
  | 1 => residual_y N dt vars i
  | 2 => residual_psi N dt vars i
  | 3 => residual_v N dt vars i
  | 4 => residual_cte N dt coeffs vars i
  | _ => residual_epsi N dt coeffs vars i
  end.

(** The constraint entry of block [b] (0 for x up to 5 for epsi) at
    step [k]: constraint [j] is held in [fg[1 + j]]. *)
Definition constraint_entry (N b k : Z) : Z := b * N + k.

(** ** What [MPC::Solve] hands to the solver, in the words of section 4.4 *)

(** [v] holds the six components of the state [x0] at the starts of the
    six state blocks and zero in every other entry. *)
Definition seeded (N : Z) (x0 v : vector) : Prop :=
  (forall b, 0 <= b < 6 -> at_index v (b * N) = at_index x0 b)
  /\ (forall j, 0 <= j < size v -> (forall b, 0 <= b < 6 -> j <> b * N) ->
        at_index v j = 0%R).

(** Every entry from [lo] to [hi - 1] is bounded to [[l, u]]. *)
Definition bounded_by (lowerbound upperbound : vector) (lo hi : Z) (l u : R)
    : Prop :=
  forall j, lo <= j < hi ->
    at_index lowerbound j = l /\ at_index upperbound j = u.

(** The indices [0], [1], ..., [n - 1]. *)
Definition range (n : Z) : list Z := map Z.of_nat (seq 0 (Z.to_nat n)).

(** The [n] entries of [v] from [start] on. *)
Definition block_of (v : vector) (start n : Z) : vector :=
  map (fun i => at_index v (start + i)) (range n).

(** ** The inverse of the coordinate transform, in the words of section 4.1

    The repository has no inverse transform. This one is written from
    the sentence of the design document, "applying the inverse rotation
    and translation recovers original coordinates": the transposed
    rotation is applied first and the position of the vehicle is added
    back afterwards. *)
Definition inverse_transform_point (xvals yvals : vector)
    (vehicle_x vehicle_y vehicle_theta : R) (i : Z) (t : vector * vector)
    : outcome (vector * vector) :=
  let '(world_x, world_y) := t in
  let cos_theta := cos (vehicle_theta - M_PI / 2) in
  let sin_theta := sin (vehicle_theta - M_PI / 2) in
  xi <- vget "xvals" xvals i ;;
  yi <- vget "yvals" yvals i ;;
  let old_x := (- xi * sin_theta - yi * cos_theta + vehicle_x)%R in
  let old_y := (xi * cos_theta - yi * sin_theta + vehicle_y)%R in
  Ok (world_x ++ [old_x], world_y ++ [old_y]).

Definition inverse_transform_map_coord (xvals yvals : vector)
    (vehicle_x vehicle_y vehicle_theta : R) : outcome (vector * vector) :=
  for_loop 0 (size xvals)
    (inverse_transform_point xvals yvals vehicle_x vehicle_y vehicle_theta)
    ([], []).

(** ** The matrix of [polyfit] *)

(** The entry [A(j, k)] of a matrix already built. *)
Definition entry (A : matrix) (j k : Z) : R :=
  at_index (nth (Z.to_nat j) A []) k.

(** [A] has [r] rows of [c] entries. *)
Definition shape (A : matrix) (r c : Z) : Prop :=
  rows A = r /\ forall i, 0 <= i < r -> size (nth (Z.to_nat i) A []) = c.

(** The system of the least-squares fit: row [j] holds the powers
    [0] to [order] of [xvals(j)]. *)
Definition vandermonde (A : matrix) (xvals : vector) (order : Z) : Prop :=
  shape A (size xvals) (order + 1)
  /\ forall j k, 0 <= j < size xvals -> 0 <= k <= order ->
       entry A j k = (at_index xvals j ^ Z.to_nat k)%R.

(** ** The values of the source and the notions the properties use *)

(** The initial values of the globals, lines 16-17 and 33-35. *)
Module Baseline.
Definition N : Z := 25.
Definition dt : R := 0.05.
Definition ref_cte : R := 0.
Definition ref_epsi : R := 0.
Definition ref_v : R := 40.
End Baseline.

(** Two stand-ins for the external solver, for the examples: both hand
    back the starting point; the first reports that the iteration limit
    was reached, the second reports success. *)
Definition stalled_solver : solver :=
  fun _ xi _ _ _ _ _ => solve_result.make maxiter_exceeded xi 0.

Definition echo_solver : solver :=
  fun _ xi _ _ _ _ _ => solve_result.make success xi 0.

(** A failure is surfaced to the caller: the call returns and the
    process goes on. *)
Definition surfaces_failure {A : Type} (o : outcome A) : Prop :=
  returns_to_caller o /\ ~ terminates_process o.

(** The six initial entries and the six entries of step [i + 1] for
    every [i] in [[0, steps)] are all the [6 * N] constraint entries. *)
Definition steps_cover (N steps : Z) : Prop :=
  forall j, 0 <= j < 6 * N ->
    (exists b, 0 <= b < 6 /\ j = constraint_entry N b 0)
    \/ (exists b i, 0 <= b < 6 /\ 0 <= i < steps
                    /\ j = constraint_entry N b (i + 1)).

(** The run stopped on a read of [coeffs] outside its range. *)
Definition coeffs_fault {A : Type} (o : outcome A) : Prop :=
  exists i, o = OutOfRange "coeffs" i.

(** ** [main]

    The calls of the plotting library are left out: they read the
    vectors and change none. The value of [main] below is the series
    that its last lines plot. *)

(** The vectors [x_vals], ..., [cost_vals] of lines 384-392. *)
Module series.
Record t : Type := make {
  x_vals : vector;
  y_vals : vector;
  psi_vals : vector;
  v_vals : vector;
  cte_vals : vector;
  epsi_vals : vector;
  delta_vals : vector;
  a_vals : vector;
  cost_vals : vector
}.
End series.

(** [int iters = 60]. *)
Definition iters : Z := 60.

Section Main.

Variable N : Z.
Variable dt : R.
Variables ref_cte ref_epsi ref_v : R.
Variable indeterminate : R.
Variable ipopt_solve : solver.
Variable householderQr_solve : matrix -> vector -> vector.

(** Body of the loop of lines 364-367: one waypoint is copied into
    [ptsx] and [ptsy]. *)
Definition copy_point (next_x next_y : vector) (i : Z) (pts : vector * vector)
    : outcome (vector * vector) :=
  let '(ptsx, ptsy) := pts in
  nx <- vget "next_x" next_x i ;;
  ptsx <- vset "ptsx" ptsx i nx ;;
  ny <- vget "next_y" next_y i ;;
  ptsy <- vset "ptsy" ptsy i ny ;;
  Ok (ptsx, ptsy).

(** Body of the loop of lines 395-428: one solve; what it returns is
    pushed on the series and its first six entries are the next state. *)
Definition cycle (coeffs : vector) (i : Z) (s : vector * series.t)
    : outcome (vector * series.t) :=
  let '(state, log) := s in
  let mpc_x := [] in
  let mpc_y := [] in
  r <- Solve N dt ref_cte ref_epsi ref_v indeterminate ipopt_solve
         state coeffs mpc_x mpc_y ;;
  let '(vars, mpc_x, mpc_y) := r in
  v0 <- vget "vars" vars 0 ;;
  v1 <- vget "vars" vars 1 ;;
  v2 <- vget "vars" vars 2 ;;
  v3 <- vget "vars" vars 3 ;;
  v4 <- vget "vars" vars 4 ;;
  v5 <- vget "vars" vars 5 ;;
  v6 <- vget "vars" vars 6 ;;
  v7 <- vget "vars" vars 7 ;;
  v8 <- vget "vars" vars 8 ;;
  let log :=
    series.make
      (series.x_vals log ++ [v0]) (series.y_vals log ++ [v1])
      (series.psi_vals log ++ [v2]) (series.v_vals log ++ [v3])
      (series.cte_vals log ++ [v4]) (series.epsi_vals log ++ [v5])
      (series.delta_vals log ++ [v6]) (series.a_vals log ++ [v7])
      (series.cost_vals log ++ [v8]) in
  Ok ([v0; v1; v2; v3; v4; v5], log).

(** Lines 337-454. *)
Definition main : outcome series.t :=
  let next_x :=
    [-32.16173; -43.49173; -61.09; -78.29172; -93.05002; -107.7717]%R in
  let next_y :=
    [113.361; 105.941; 92.88499; 78.73102; 65.34102; 50.57938]%R in
  let x := (-40.62)%R in
  let y := 108.73%R in
  let psi := 3.733651%R in
  let v := 10%R in
  t <- transform_map_coord next_x next_y x y psi ;;
  let '(next_x, next_y) := t in
  let x := 0%R in
  let y := 0%R in
  let psi := 0%R in
  let next_xy_size := size next_x in
  pts <- for_loop 0 next_xy_size (copy_point next_x next_y)
           (Dvector indeterminate next_xy_size,
            Dvector indeterminate next_xy_size) ;;
  let '(ptsx, ptsy) := pts in
  coeffs <- polyfit indeterminate householderQr_solve ptsx ptsy 3 ;;
  p0 <- polyeval coeffs 0 ;;
  let cte := (p0 - y)%R in
  c1 <- vget "coeffs" coeffs 1 ;;
  c2 <- vget "coeffs" coeffs 2 ;;
  c3 <- vget "coeffs" coeffs 3 ;;
  let epsi := (- atan (c1 + (2 * c2 * x) + (3 * c3 * (x * x))))%R in
  let state := [x; y; psi; v; cte; epsi] in
  let log := series.make [x] [y] [psi] [v] [cte] [epsi] [] [] [] in
  s <- for_loop 0 iters (cycle coeffs) (state, log) ;;
  Ok (snd s).

End Main.




(** A stand-in for the least-squares solve of Eigen, for the examples: the
    cubic that is zero. *)
Definition flat_fit : matrix -> vector -> vector :=
  fun _ _ => [0; 0; 0; 0]%R.

(** ** Notions for the further properties *)

(** Evaluation by Horner's rule, lowest degree first. *)
Fixpoint horner (coeffs : vector) (x : R) : R :=
  match coeffs with
  | [] => 0%R
  | c :: t => (c + x * horner t x)%R
  end.

(** The decision vector starts at the state [x0]. *)
Definition starts_at (N : Z) (x0 vars : vector) : Prop :=
  forall b, 0 <= b < 6 -> at_index vars (b * N) = at_index x0 b.

(** The decision vector follows the kinematic model of the comment of
    lines 127-133 from every step to the next. *)
Definition follows_model (N : Z) (dt : R) (coeffs vars : vector) : Prop :=
  forall i, 0 <= i < N - 1 ->
    x_ N vars (i + 1)
    = (x_ N vars i + v_ N vars i * cos (psi_ N vars i) * dt)%R
    /\ y_ N vars (i + 1)
       = (y_ N vars i + v_ N vars i * sin (psi_ N vars i) * dt)%R
    /\ psi_ N vars (i + 1)
       = (psi_ N vars i + v_ N vars i / Lf * delta_ N vars i * dt)%R
    /\ v_ N vars (i + 1) = (v_ N vars i + a_ N vars i * dt)%R
    /\ cte_ N vars (i + 1)
       = (curve coeffs (x_ N vars i) - y_ N vars i
          + v_ N vars i * sin (epsi_ N vars i) * dt)%R
    /\ epsi_ N vars (i + 1)
       = (psi_ N vars i - psides N coeffs vars i
          + v_ N vars i * delta_ N vars i / Lf * dt)%R.

(** The constraints [g] that the evaluator left in [fg] lie within the
    bounds [gl] and [gu]: constraint [j] is [g[1 + j]]. *)
Definition within_bounds (gl gu g : vector) : Prop :=
  forall j, 0 <= j < size gl ->
    (at_index gl j <= at_index g (1 + j) <= at_index gu j)%R.

(** Row [j] of [A] times the column [c] of [n] entries. *)
Definition row_times (A : matrix) (j : Z) (c : vector) (n : Z) : R :=
  sum_upto (Z.to_nat n) (fun k => entry A j k * at_index c k)%R.

(** ** Basic facts: machine integers, vectors, loops *)

Lemma sz_small (z : Z) : 0 <= z < SIZE_MODULUS -> sz z = z.
Proof. intros H. unfold sz. now apply Z.mod_small. Qed.

Lemma INT_MAX_small : INT_MAX < SIZE_MODULUS.
Proof. reflexivity. Qed.

Lemma horizon_small (N : Z) : horizon_fits N -> N * 8 < SIZE_MODULUS - 2.
Proof.
  unfold horizon_fits. intros H. pose proof INT_MAX_small.
  unfold INT_MAX, SIZE_MODULUS in *. simpl in *. lia.
Qed.

Section Offsets.

Variable N : Z.
Hypothesis N_ge : 2 <= N.
Hypothesis N_fits : horizon_fits N.

Lemma y_start_eq : y_start N = N.
Proof.
  pose proof (horizon_small N N_fits).
  unfold y_start, x_start. apply sz_small. lia.
Qed.

Lemma psi_start_eq : psi_start N = 2 * N.
Proof.
  pose proof (horizon_small N N_fits).
  unfold psi_start. rewrite y_start_eq. rewrite sz_small; lia.
Qed.

Lemma v_start_eq : v_start N = 3 * N.
Proof.
  pose proof (horizon_small N N_fits).
  unfold v_start. rewrite psi_start_eq. rewrite sz_small; lia.
Qed.

Lemma cte_start_eq : cte_start N = 4 * N.
Proof.
  pose proof (horizon_small N N_fits).
  unfold cte_start. rewrite v_start_eq. rewrite sz_small; lia.
Qed.

Lemma epsi_start_eq : epsi_start N = 5 * N.
Proof.
  pose proof (horizon_small N N_fits).
  unfold epsi_start. rewrite cte_start_eq. rewrite sz_small; lia.
Qed.

Lemma delta_start_eq : delta_start N = 6 * N.
Proof.
  pose proof (horizon_small N N_fits).
  unfold delta_start. rewrite epsi_start_eq. rewrite sz_small; lia.
Qed.

Lemma a_start_eq : a_start N = 7 * N - 1.
Proof.
  pose proof (horizon_small N N_fits).
  unfold a_start. rewrite delta_start_eq. rewrite sz_small; lia.
Qed.

Lemma n_vars_eq : n_vars N = 8 * N - 2.
Proof.
  pose proof (horizon_small N N_fits).
  unfold n_vars. rewrite (sz_small (N - 1)) by lia. rewrite sz_small; lia.
Qed.

Lemma n_constraints_eq : n_constraints N = 6 * N.
Proof.
  pose proof (horizon_small N N_fits).
  unfold n_constraints. rewrite sz_small; lia.
Qed.

End Offsets.

Lemma size_nonneg (v : vector) : 0 <= size v.
Proof. unfold size. lia. Qed.

Lemma in_range_true (v : vector) (i : Z) :
  0 <= i < size v -> in_range v i = true.
Proof.
  intros H. unfold in_range.
  apply andb_true_intro. split; [apply Z.leb_le | apply Z.ltb_lt]; lia.
Qed.

Lemma in_range_false (v : vector) (i : Z) :
  size v <= i -> in_range v i = false.
Proof.
  intros H. unfold in_range.
  apply andb_false_intro2. apply Z.ltb_ge. lia.
Qed.

Lemma vget_ok (name : string) (v : vector) (i : Z) :
  0 <= i < size v -> vget name v i = Ok (at_index v i).
Proof. intros H. unfold vget. now rewrite in_range_true. Qed.

Lemma vget_out (name : string) (v : vector) (i : Z) :
  size v <= i -> vget name v i = OutOfRange name i.
Proof. intros H. unfold vget. now rewrite in_range_false. Qed.

Lemma vset_ok (name : string) (v : vector) (i : Z) (x : R) :
  0 <= i < size v -> vset name v i x = Ok (list_update v (Z.to_nat i) x).
Proof. intros H. unfold vset. now rewrite in_range_true. Qed.

Lemma length_list_update (v : vector) (n : nat) (x : R) :
  List.length (list_update v n x) = List.length v.
Proof.
  revert n. induction v as [|h t IH]; intros [|n]; simpl; auto.
Qed.

Lemma size_list_update (v : vector) (n : nat) (x : R) :
  size (list_update v n x) = size v.
Proof. unfold size. now rewrite length_list_update. Qed.

Lemma nth_list_update_same (v : vector) (n : nat) (x d : R) :
  (n < List.length v)%nat -> nth n (list_update v n x) d = x.
Proof.
  revert n. induction v as [|h t IH]; intros [|n] H; simpl in *;
    try lia; auto. apply IH. lia.
Qed.

Lemma nth_list_update_other (v : vector) (n m : nat) (x d : R) :
  n <> m -> nth m (list_update v n x) d = nth m v d.
Proof.
  revert n m. induction v as [|h t IH]; intros [|n] [|m] H; simpl;
    auto; try congruence.
Qed.

Lemma at_index_update (v : vector) (i j : Z) (x : R) :
  0 <= i < size v -> 0 <= j ->
  at_index (list_update v (Z.to_nat i) x) j
  = if j =? i then x else at_index v j.
Proof.
  intros Hi Hj. unfold at_index, size in *.
  destruct (Z.eqb_spec j i) as [->|Hne].
  - apply nth_list_update_same. lia.
  - apply nth_list_update_other. lia.
Qed.

Lemma at_index_update_same (v : vector) (i : Z) (x : R) :
  0 <= i < size v -> at_index (list_update v (Z.to_nat i) x) i = x.
Proof.
  intros Hi. rewrite at_index_update by lia. now rewrite Z.eqb_refl.
Qed.

Lemma at_index_update_other (v : vector) (i j : Z) (x : R) :
  0 <= i -> 0 <= j -> i <> j ->
  at_index (list_update v (Z.to_nat i) x) j = at_index v j.
Proof.
  intros Hi Hj Hne. unfold at_index. apply nth_list_update_other. lia.
Qed.

(** A loop that establishes [Inv (i + 1)] from [Inv i] at every counter
    value runs to its end and establishes [Inv hi]. *)
Lemma for_from_invariant {St : Type} (Inv : Z -> St -> Prop)
    (body : Z -> St -> outcome St) (fuel : nat) :
  forall (i : Z) (s : St),
    Inv i s ->
    (forall k t, i <= k < i + Z.of_nat fuel -> Inv k t ->
       exists t', body k t = Ok t' /\ Inv (k + 1) t') ->
    exists s', for_from fuel i body s = Ok s' /\ Inv (i + Z.of_nat fuel) s'.
Proof.
  induction fuel as [|fuel IH]; intros i s Hinv Hstep.
  - exists s. simpl. rewrite Z.add_0_r. auto.
  - destruct (Hstep i s) as [t [Hb Ht]]; [lia | assumption |].
    destruct (IH (i + 1) t Ht) as [s' [Hrun Hs']].
    + intros k u Hk Hu. apply Hstep; [lia | assumption].
    + exists s'. split.
      * simpl. rewrite Hb. exact Hrun.
      * replace (i + Z.of_nat (S fuel)) with (i + 1 + Z.of_nat fuel) by lia.
        exact Hs'.
Qed.

Lemma for_loop_invariant {St : Type} (Inv : Z -> St -> Prop)
    (lo hi : Z) (body : Z -> St -> outcome St) (s : St) :
  lo <= hi ->
  Inv lo s ->
  (forall k t, lo <= k < hi -> Inv k t ->
     exists t', body k t = Ok t' /\ Inv (k + 1) t') ->
  exists s', for_loop lo hi body s = Ok s' /\ Inv hi s'.
Proof.
  intros Hle Hinv Hstep. unfold for_loop.
  destruct (for_from_invariant Inv body (Z.to_nat (hi - lo)) lo s Hinv)
    as [s' [Hrun Hs']].
  - intros k t Hk. apply Hstep. lia.
  - exists s'. split; [assumption |].
    assert (E : lo + Z.of_nat (Z.to_nat (hi - lo)) = hi) by lia.
    rewrite E in Hs'. exact Hs'.
Qed.

(** The first round of a loop that has one. *)
Lemma for_loop_first {St : Type} (lo hi : Z) (body : Z -> St -> outcome St) (s : St) :
  lo < hi ->
  for_loop lo hi body s
  = (s' <- body lo s ;; for_loop (lo + 1) hi body s').
Proof.
  intros H. unfold for_loop.
  replace (Z.to_nat (hi - lo)) with (S (Z.to_nat (hi - (lo + 1)))) by lia.
  reflexivity.
Qed.

Lemma vget_at (name : string) (v : vector) (i j : Z) :
  i = j -> 0 <= j < size v -> vget name v i = Ok (at_index v j).
Proof. intros -> H. now apply vget_ok. Qed.

Lemma vset_at (name : string) (v : vector) (i j : Z) (x : R) :
  i = j -> 0 <= j < size v ->
  vset name v i x = Ok (list_update v (Z.to_nat j) x).
Proof. intros -> H. now apply vset_ok. Qed.

Lemma vadd_ok (name : string) (v : vector) (i : Z) (x : R) :
  0 <= i < size v ->
  vadd name v i x = Ok (list_update v (Z.to_nat i) (at_index v i + x)%R).
Proof.
  intros H. unfold vadd. rewrite vget_ok by assumption. cbn [bind].
  now apply vset_ok.
Qed.

Lemma sum_upto_succ (k : Z) (t : Z -> R) :
  0 <= k ->
  sum_upto (Z.to_nat (k + 1)) t = (sum_upto (Z.to_nat k) t + t k)%R.
Proof.
  intros H. replace (Z.to_nat (k + 1)) with (S (Z.to_nat k)) by lia.
  simpl. now rewrite Z2Nat.id.
Qed.

(** A loop whose every round adds [t k] to [fg[0]] adds their sum. *)
Lemma accumulate_loop (body : Z -> vector -> outcome vector)
    (t : Z -> R) (n : Z) (fg : vector) :
  0 <= n ->
  (forall k g, 0 <= k < n -> size g = size fg ->
     exists g', body k g = Ok g' /\ size g' = size fg
                /\ at_index g' 0 = (at_index g 0 + t k)%R) ->
  exists fg', for_loop 0 n body fg = Ok fg' /\ size fg' = size fg
              /\ at_index fg' 0 = (at_index fg 0 + sum_upto (Z.to_nat n) t)%R.
Proof.
  intros Hn Hstep.
  apply (for_loop_invariant
           (fun i g => size g = size fg
                       /\ at_index g 0
                          = (at_index fg 0 + sum_upto (Z.to_nat i) t)%R)).
  - assumption.
  - split; [reflexivity | simpl; ring].
  - intros k g Hk [Hsize Hacc].
    destruct (Hstep k g Hk Hsize) as [g' [Hrun [Hsize' Hacc']]].
    exists g'. repeat split; try assumption.
    rewrite Hacc', Hacc, sum_upto_succ by lia. ring.
Qed.

(** ** The run of the evaluator *)

(** Look through one update of a vector, by cases on the index. *)
Ltac upd :=
  rewrite at_index_update by (rewrite ?size_list_update; lia);
  match goal with
  | |- context [?a =? ?b] =>
      destruct (Z.eqb_spec a b); [try (exfalso; lia) | try (exfalso; lia)]
  end.

(** The six blocks of the state, one by one. *)
Ltac block b :=
  let H := fresh "Hcases" in
  assert (H : b = 0 \/ b = 1 \/ b = 2 \/ b = 3 \/ b = 4 \/ b = 5) by lia;
  destruct H as [-> | [-> | [-> | [-> | [-> | ->]]]]].

Section Evaluator.

Variable N : Z.
Variable dt : R.
Variables ref_cte ref_epsi ref_v : R.
Variables coeffs vars : vector.

Hypothesis N_ge : 2 <= N.
Hypothesis N_fits : horizon_fits N.
Hypothesis vars_size : size vars = n_vars N.

Let vars_size' : size vars = 8 * N - 2.
Proof. rewrite vars_size. now apply n_vars_eq. Qed.

Let N_small : N * 8 < SIZE_MODULUS - 2.
Proof. now apply horizon_small. Qed.

Ltac offsets :=
  rewrite ?(y_start_eq N N_ge N_fits), ?(psi_start_eq N N_ge N_fits),
    ?(v_start_eq N N_ge N_fits), ?(cte_start_eq N N_ge N_fits),
    ?(epsi_start_eq N N_ge N_fits), ?(delta_start_eq N N_ge N_fits),
    ?(a_start_eq N N_ge N_fits);
  unfold x_start.

Ltac index :=
  solve [ lia
        | rewrite ?size_list_update; lia
        | offsets; rewrite ?sz_small by lia; lia ].

(** Read [vars] at the entry written [j] in the layout. *)
Ltac rd j := rewrite (vget_at "vars" vars _ j) by index; cbn [bind].

(** Write [fg] at [j]. *)
Ltac wr j := rewrite (vset_at "fg" _ _ j) by index; cbn [bind].

Ltac add0 := rewrite vadd_ok by index; cbn [bind].

Lemma cost_reference_step (k : Z) (g : vector) :
  0 <= k < N -> 0 < size g ->
  exists g', cost_reference N ref_cte ref_epsi ref_v vars k g = Ok g'
    /\ size g' = size g
    /\ at_index g' 0
       = (at_index g 0
          + ((cte_ N vars k - ref_cte) ^ 2 + (epsi_ N vars k - ref_epsi) ^ 2
             + (v_ N vars k - ref_v) ^ 2))%R.
Proof.
  intros Hk Hg. unfold cost_reference.
  rd (4 * N + k). add0. rd (5 * N + k). add0. rd (3 * N + k). add0.
  eexists. split; [reflexivity |]. split.
  - now rewrite !size_list_update.
  - repeat upd. unfold cte_, epsi_, v_. ring.
Qed.

Lemma cost_actuators_step (k : Z) (g : vector) :
  0 <= k < N - 1 -> 0 < size g ->
  exists g', cost_actuators N vars k g = Ok g'
    /\ size g' = size g
    /\ at_index g' 0
       = (at_index g 0 + ((delta_ N vars k) ^ 2 + (a_ N vars k) ^ 2))%R.
Proof.
  intros Hk Hg. unfold cost_actuators.
  rd (6 * N + k). add0. rd (6 * N + (N - 1) + k). add0.
  eexists. split; [reflexivity |]. split.
  - now rewrite !size_list_update.
  - repeat upd. unfold delta_, a_. ring.
Qed.

Lemma cost_gaps_step (k : Z) (g : vector) :
  0 <= k < N - 2 -> 0 < size g ->
  exists g', cost_gaps N vars k g = Ok g'
    /\ size g' = size g
    /\ at_index g' 0
       = (at_index g 0
          + ((delta_ N vars (k + 1) - delta_ N vars k) ^ 2
             + (a_ N vars (k + 1) - a_ N vars k) ^ 2))%R.
Proof.
  intros Hk Hg. unfold cost_gaps.
  rd (6 * N + (k + 1)). rd (6 * N + k). add0.
  rd (6 * N + (N - 1) + (k + 1)). rd (6 * N + (N - 1) + k). add0.
  eexists. split; [reflexivity |]. split.
  - now rewrite !size_list_update.
  - repeat upd. unfold delta_, a_. ring.
Qed.

Lemma FG_eval_cost_run (fg : vector) :
  0 < size fg ->
  exists g, FG_eval_cost N ref_cte ref_epsi ref_v vars fg = Ok g /\ size g = size fg
    /\ at_index g 0 = cost_formula N ref_cte ref_epsi ref_v vars.
Proof.
  intros Hfg. unfold FG_eval_cost.
  rewrite vset_ok by lia. cbn [bind].
  set (g0 := list_update fg (Z.to_nat 0) 0%R).
  assert (Hg0 : size g0 = size fg) by apply size_list_update.
  assert (Hz : at_index g0 0 = 0%R) by (apply at_index_update_same; lia).
  destruct (accumulate_loop
              (cost_reference N ref_cte ref_epsi ref_v vars)
              (fun i => (cte_ N vars i - ref_cte) ^ 2
                        + (epsi_ N vars i - ref_epsi) ^ 2
                        + (v_ N vars i - ref_v) ^ 2)%R N g0)
    as [g1 [Hr1 [Hs1 Ha1]]]; [lia | |].
  { intros k g Hk Hg. destruct (cost_reference_step k g) as [g' [? [? ?]]];
      [lia | lia |]. exists g'. repeat split; congruence. }
  rewrite Hr1. cbn [bind].
  rewrite (sz_small (N - 1)) by lia.
  destruct (accumulate_loop (cost_actuators N vars)
              (fun i => (delta_ N vars i) ^ 2 + (a_ N vars i) ^ 2)%R
              (N - 1) g1)
    as [g2 [Hr2 [Hs2 Ha2]]]; [lia | |].
  { intros k g Hk Hg. destruct (cost_actuators_step k g) as [g' [? [? ?]]];
      [lia | lia |]. exists g'. repeat split; congruence. }
  rewrite Hr2. cbn [bind].
  rewrite (sz_small (N - 2)) by lia.
  destruct (accumulate_loop (cost_gaps N vars)
              (fun i => (delta_ N vars (i + 1) - delta_ N vars i) ^ 2
                        + (a_ N vars (i + 1) - a_ N vars i) ^ 2)%R
              (N - 2) g2)
    as [g3 [Hr3 [Hs3 Ha3]]]; [lia | |].
  { intros k g Hk Hg. destruct (cost_gaps_step k g) as [g' [? [? ?]]];
      [lia | lia |]. exists g'. repeat split; congruence. }
  exists g3. split; [assumption |]. split; [congruence |].
  rewrite Ha3, Ha2, Ha1, Hz.
  unfold cost_formula, tracking_cost, actuation_cost, smoothness_cost. ring.
Qed.

Lemma initial_constraints_run (g : vector) :
  size g = 1 + n_constraints N ->
  exists g', initial_constraints N vars g = Ok g' /\ size g' = size g
    /\ at_index g' 0 = at_index g 0
    /\ forall b, 0 <= b < 6 ->
         at_index g' (1 + constraint_entry N b 0) = at_index vars (b * N).
Proof.
  intros Hg. rewrite (n_constraints_eq N N_ge N_fits) in Hg.
  unfold initial_constraints, initial_constraint.
  rd (0 * N). wr (1 + 0 * N). rd (1 * N). wr (1 + 1 * N).
  rd (2 * N). wr (1 + 2 * N). rd (3 * N). wr (1 + 3 * N).
  rd (4 * N). wr (1 + 4 * N). rd (5 * N). wr (1 + 5 * N).
  eexists. split; [reflexivity |]. split; [| split].
  - now rewrite !size_list_update.
  - repeat upd. reflexivity.
  - intros b Hb. unfold constraint_entry.
    assert (Hcases : b = 0 \/ b = 1 \/ b = 2 \/ b = 3 \/ b = 4 \/ b = 5) by lia.
    destruct Hcases as [-> | [-> | [-> | [-> | [-> | ->]]]]];
      repeat upd; reflexivity.
Qed.

Lemma model_constraints_step (k : Z) (g : vector) :
  4 <= size coeffs ->
  0 <= k < N - 1 -> size g = 1 + n_constraints N ->
  exists g', model_constraints N dt coeffs vars k g = Ok g'
    /\ size g' = size g
    /\ (forall b, 0 <= b < 6 ->
          at_index g' (1 + constraint_entry N b (k + 1))
          = residual N dt coeffs vars b k)
    /\ (forall j, 0 <= j ->
          (forall b, 0 <= b < 6 -> j <> 1 + constraint_entry N b (k + 1)) ->
          at_index g' j = at_index g j).
Proof.
  intros Hc Hk Hg. rewrite (n_constraints_eq N N_ge N_fits) in Hg.
  unfold model_constraints.
  rd (0 * N + (k + 1)). rd (1 * N + (k + 1)). rd (2 * N + (k + 1)).
  rd (3 * N + (k + 1)). rd (4 * N + (k + 1)). rd (5 * N + (k + 1)).
  rd (0 * N + k). rd (1 * N + k). rd (2 * N + k).
  rd (3 * N + k). rd (4 * N + k). rd (5 * N + k).
  rd (6 * N + k). rd (6 * N + (N - 1) + k).
  rewrite !(vget_ok "coeffs") by lia. cbn [bind].
  wr (1 + (0 * N + (k + 1))). wr (1 + (1 * N + (k + 1))).
  wr (1 + (2 * N + (k + 1))). wr (1 + (3 * N + (k + 1))).
  wr (1 + (4 * N + (k + 1))). wr (1 + (5 * N + (k + 1))).
  eexists. split; [reflexivity |]. split; [| split].
  - now rewrite !size_list_update.
  - intros b Hb. unfold constraint_entry.
    assert (Hcases : b = 0 \/ b = 1 \/ b = 2 \/ b = 3 \/ b = 4 \/ b = 5) by lia.
    destruct Hcases as [-> | [-> | [-> | [-> | [-> | ->]]]]];
      repeat upd; cbn [residual];
      unfold residual_x, residual_y, residual_psi, residual_v, residual_cte,
        residual_epsi, psides, curve, slope, x_, y_, psi_, v_, cte_, epsi_, delta_, a_;
      unfold Rdiv; ring.
  - intros j Hj Hother. unfold constraint_entry in Hother.
    pose proof (Hother 0) as H0. pose proof (Hother 1) as H1.
    pose proof (Hother 2) as H2. pose proof (Hother 3) as H3.
    pose proof (Hother 4) as H4. pose proof (Hother 5) as H5.
    repeat upd. reflexivity.
Qed.

(** What [FG_eval] leaves in [fg]: the cost, the six initial constraints,
    and the six residuals of every step. *)
Lemma FG_eval_run (fg : vector) :
  4 <= size coeffs ->
  size fg = 1 + n_constraints N ->
  exists g, FG_eval N dt ref_cte ref_epsi ref_v coeffs fg vars = Ok g
    /\ size g = size fg
    /\ at_index g 0 = cost_formula N ref_cte ref_epsi ref_v vars
    /\ (forall b, 0 <= b < 6 ->
          at_index g (1 + constraint_entry N b 0) = at_index vars (b * N))
    /\ (forall b k, 0 <= b < 6 -> 0 <= k < N - 1 ->
          at_index g (1 + constraint_entry N b (k + 1))
          = residual N dt coeffs vars b k).
Proof.
  intros Hc Hfg. unfold FG_eval.
  pose proof (n_constraints_eq N N_ge N_fits) as Hn.
  destruct (FG_eval_cost_run fg) as [g1 [Hr1 [Hs1 Hcost]]]; [lia |].
  rewrite Hr1. cbn [bind].
  destruct (initial_constraints_run g1) as [g2 [Hr2 [Hs2 [Hz2 Hinit]]]];
    [congruence |].
  rewrite Hr2. cbn [bind].
  rewrite (sz_small (N - 1)) by lia.
  apply (for_loop_invariant
           (fun i g =>
              size g = size fg
              /\ at_index g 0 = cost_formula N ref_cte ref_epsi ref_v vars
              /\ (forall b, 0 <= b < 6 ->
                    at_index g (1 + constraint_entry N b 0)
                    = at_index vars (b * N))
              /\ (forall b k, 0 <= b < 6 -> 0 <= k < i ->
                    at_index g (1 + constraint_entry N b (k + 1))
                    = residual N dt coeffs vars b k))).
  - lia.
  - split; [congruence |]. split; [congruence |]. split; [exact Hinit |].
    intros b k _ Hk. lia.
  - intros i g Hi [Hsg [Hcg [Hig Hrg]]].
    destruct (model_constraints_step i g Hc) as [g' [Hr [Hs [Hnew Hold]]]];
      [lia | congruence |].
    exists g'. split; [assumption |]. split; [congruence |].
    split; [| split].
    + rewrite Hold; [assumption | lia |].
      intros b Hb. unfold constraint_entry. block b; lia.
    + intros b Hb. rewrite Hold; [now apply Hig | |].
      * unfold constraint_entry. block b; lia.
      * intros b' Hb'. unfold constraint_entry. block b; block b'; lia.
    + intros b k Hb Hk. destruct (Z.eq_dec k i) as [-> | Hne].
      * now apply Hnew.
      * rewrite Hold; [apply Hrg; lia | |].
        -- unfold constraint_entry. block b; lia.
        -- intros b' Hb'. unfold constraint_entry. block b; block b'; lia.
Qed.

(** With fewer than four coefficients the first round of the loop over
    the model constraints reads [coeffs] outside its range. *)
Lemma FG_eval_short_coeffs (fg : vector) :
  size coeffs < 4 ->
  size fg = 1 + n_constraints N ->
  FG_eval N dt ref_cte ref_epsi ref_v coeffs fg vars
  = OutOfRange "coeffs" (size coeffs).
Proof.
  intros Hc Hfg. unfold FG_eval.
  pose proof (n_constraints_eq N N_ge N_fits) as Hn.
  destruct (FG_eval_cost_run fg) as [g1 [Hr1 [Hs1 Hcost]]]; [lia |].
  rewrite Hr1. cbn [bind].
  destruct (initial_constraints_run g1) as [g2 [Hr2 [Hs2 [Hz2 Hinit]]]];
    [congruence |].
  rewrite Hr2. cbn [bind].
  rewrite (sz_small (N - 1)) by lia.
  rewrite for_loop_first by lia.
  unfold model_constraints.
  rd (0 * N + (0 + 1)). rd (1 * N + (0 + 1)). rd (2 * N + (0 + 1)).
  rd (3 * N + (0 + 1)). rd (4 * N + (0 + 1)). rd (5 * N + (0 + 1)).
  rd (0 * N + 0). rd (1 * N + 0). rd (2 * N + 0).
  rd (3 * N + 0). rd (4 * N + 0). rd (5 * N + 0).
  rd (6 * N + 0). rd (6 * N + (N - 1) + 0).
  pose proof (size_nonneg coeffs) as Hnn.
  assert (Hlen : size coeffs = 0 \/ size coeffs = 1 \/ size coeffs = 2
                 \/ size coeffs = 3) by lia.
  destruct Hlen as [E | [E | [E | E]]]; rewrite E.
  - rewrite (vget_out "coeffs" coeffs 0) by lia. reflexivity.
  - rewrite (vget_ok "coeffs" coeffs 0) by lia. cbn [bind].
    rewrite (vget_out "coeffs" coeffs 1) by lia. reflexivity.
  - rewrite (vget_ok "coeffs" coeffs 0), (vget_ok "coeffs" coeffs 1) by lia.
    cbn [bind].
    rewrite (vget_out "coeffs" coeffs 2) by lia. reflexivity.
  - rewrite (vget_ok "coeffs" coeffs 0), (vget_ok "coeffs" coeffs 1),
      (vget_ok "coeffs" coeffs 2) by lia.
    cbn [bind].
    rewrite (vget_out "coeffs" coeffs 3) by lia. reflexivity.
Qed.

End Evaluator.

(** ** The run of [MPC::Solve] *)

Lemma size_repeat (x : R) (n : Z) : 0 <= n -> size (repeat x (Z.to_nat n)) = n.
Proof. intros H. unfold size. rewrite repeat_length. lia. Qed.

(** A loop that writes [c] at every index from [lo] to [hi - 1]. *)
Lemma fill_loop (name : string) (c : R) (lo hi : Z) (v : vector) :
  0 <= lo <= hi -> hi <= size v ->
  exists v', for_loop lo hi (fun i w => vset name w i c) v = Ok v'
    /\ size v' = size v
    /\ (forall j, lo <= j < hi -> at_index v' j = c)
    /\ (forall j, 0 <= j -> ~ lo <= j < hi -> at_index v' j = at_index v j).
Proof.
  intros Hlo Hhi.
  apply (for_loop_invariant
           (fun i w =>
              size w = size v
              /\ (forall j, lo <= j < i -> at_index w j = c)
              /\ (forall j, 0 <= j -> ~ lo <= j < i ->
                    at_index w j = at_index v j))).
  - lia.
  - split; [reflexivity |]. split; [intros j Hj; lia | reflexivity].
  - intros i w Hi [Hs [Hin Hout]].
    rewrite vset_ok by lia. eexists. split; [reflexivity |].
    split; [now rewrite size_list_update |]. split.
    + intros j Hj. upd; [reflexivity | apply Hin; lia].
    + intros j Hj Hnot. upd. apply Hout; lia.
Qed.

(** The same for a pair of bound vectors. *)
Lemma set_bounds_loop (lname uname : string) (l u : R) (lo hi : Z)
    (b : vector * vector) :
  0 <= lo <= hi -> hi <= size (fst b) -> size (snd b) = size (fst b) ->
  exists b', for_loop lo hi (set_bounds lname uname l u) b = Ok b'
    /\ size (fst b') = size (fst b) /\ size (snd b') = size (snd b)
    /\ (forall j, lo <= j < hi ->
          at_index (fst b') j = l /\ at_index (snd b') j = u)
    /\ (forall j, 0 <= j -> ~ lo <= j < hi ->
          at_index (fst b') j = at_index (fst b) j
          /\ at_index (snd b') j = at_index (snd b) j).
Proof.
  intros Hlo Hhi Hsame.
  apply (for_loop_invariant
           (fun i w =>
              size (fst w) = size (fst b) /\ size (snd w) = size (snd b)
              /\ (forall j, lo <= j < i ->
                    at_index (fst w) j = l /\ at_index (snd w) j = u)
              /\ (forall j, 0 <= j -> ~ lo <= j < i ->
                    at_index (fst w) j = at_index (fst b) j
                    /\ at_index (snd w) j = at_index (snd b) j))).
  - lia.
  - split; [reflexivity |]. split; [reflexivity |].
    split; [intros j Hj; lia | intros j _ _; split; reflexivity].
  - intros i [wl wu] Hi [Hsl [Hsu [Hin Hout]]]. cbn [fst snd] in *.
    unfold set_bounds. rewrite !vset_ok by lia. cbn [bind].
    eexists. split; [reflexivity |]. cbn [fst snd].
    split; [now rewrite size_list_update |].
    split; [now rewrite size_list_update |]. split.
    + intros j Hj. destruct (Z.eq_dec j i) as [-> | Hne].
      * rewrite !at_index_update_same by lia. split; reflexivity.
      * rewrite !at_index_update_other by lia. apply Hin. lia.
    + intros j Hj Hnot. rewrite !at_index_update_other by lia.
      apply Hout; lia.
Qed.

(** The six writes at the starts of the state blocks. *)
Lemma seed_spec (N : Z) (x0 v : vector) :
  2 <= N -> 6 * N <= size v ->
  let w :=
    list_update
      (list_update
         (list_update
            (list_update
               (list_update
                  (list_update v (Z.to_nat 0) (at_index x0 0))
                  (Z.to_nat N) (at_index x0 1))
               (Z.to_nat (2 * N)) (at_index x0 2))
            (Z.to_nat (3 * N)) (at_index x0 3))
         (Z.to_nat (4 * N)) (at_index x0 4))
      (Z.to_nat (5 * N)) (at_index x0 5) in
  size w = size v
  /\ (forall b, 0 <= b < 6 -> at_index w (b * N) = at_index x0 b)
  /\ (forall j, 0 <= j -> (forall b, 0 <= b < 6 -> j <> b * N) ->
        at_index w j = at_index v j).
Proof.
  intros HN Hv w. subst w. split; [| split].
  - now rewrite !size_list_update.
  - intros b Hb. block b; repeat upd; reflexivity.
  - intros j Hj Hother.
    pose proof (Hother 0) as H0. pose proof (Hother 1) as H1.
    pose proof (Hother 2) as H2. pose proof (Hother 3) as H3.
    pose proof (Hother 4) as H4. pose proof (Hother 5) as H5.
    repeat upd. reflexivity.
Qed.

Section Setup.

Variable N : Z.
Variable indeterminate : R.
Variable x0 : vector.

Hypothesis N_ge : 2 <= N.
Hypothesis N_fits : horizon_fits N.
Hypothesis x0_size : 6 <= size x0.

(** The starting point and the bounds that [MPC::Solve] builds. *)
Lemma Solve_setup_run :
  exists p, Solve_setup N indeterminate x0 = Ok p
    /\ (size (problem.vars p) = 8 * N - 2
        /\ seeded N x0 (problem.vars p))
    /\ (size (problem.vars_lowerbound p) = 8 * N - 2
        /\ size (problem.vars_upperbound p) = 8 * N - 2
        /\ bounded_by (problem.vars_lowerbound p) (problem.vars_upperbound p)
             0 (6 * N) (-1.0e19) 1.0e19
        /\ bounded_by (problem.vars_lowerbound p) (problem.vars_upperbound p)
             (6 * N) (7 * N - 1) (-0.436332) 0.436332
        /\ bounded_by (problem.vars_lowerbound p) (problem.vars_upperbound p)
             (7 * N - 1) (8 * N - 2) (-1.0) 1.0)
    /\ (size (problem.constraints_lowerbound p) = 6 * N
        /\ size (problem.constraints_upperbound p) = 6 * N
        /\ seeded N x0 (problem.constraints_lowerbound p)
        /\ seeded N x0 (problem.constraints_upperbound p)).
Proof.
  unfold Solve_setup.
  rewrite !(vget_ok "x0") by lia. cbn [bind]. cbv zeta.
  rewrite (n_vars_eq N N_ge N_fits), (n_constraints_eq N N_ge N_fits),
    (y_start_eq N N_ge N_fits), (psi_start_eq N N_ge N_fits),
    (v_start_eq N N_ge N_fits), (cte_start_eq N N_ge N_fits),
    (epsi_start_eq N N_ge N_fits), (delta_start_eq N N_ge N_fits),
    (a_start_eq N N_ge N_fits).
  unfold x_start.
  pose proof (size_repeat indeterminate (8 * N - 2)) as Hnv.
  pose proof (size_repeat indeterminate (6 * N)) as Hnc.
  fold (Dvector indeterminate (8 * N - 2)) in Hnv.
  fold (Dvector indeterminate (6 * N)) in Hnc.
  (* vars *)
  destruct (fill_loop "vars" 0.0%R 0 (8 * N - 2)
              (Dvector indeterminate (8 * N - 2)))
    as [v1 [Hr1 [Hs1 [Hin1 _]]]]; [lia | lia |].
  rewrite Hr1. cbn [bind].
  rewrite (vset_ok "vars" _ 0) by lia. cbn [bind].
  rewrite (vset_ok "vars" _ N) by (rewrite ?size_list_update; lia).
  cbn [bind].
  rewrite (vset_ok "vars" _ (2 * N)) by (rewrite ?size_list_update; lia).
  cbn [bind].
  rewrite (vset_ok "vars" _ (3 * N)) by (rewrite ?size_list_update; lia).
  cbn [bind].
  rewrite (vset_ok "vars" _ (4 * N)) by (rewrite ?size_list_update; lia).
  cbn [bind].
  rewrite (vset_ok "vars" _ (5 * N)) by (rewrite ?size_list_update; lia).
  cbn [bind].
  destruct (seed_spec N x0 v1) as [Hsv [Hbv Hov]]; [lia | lia |].
  (* bounds of the variables *)
  destruct (set_bounds_loop "vars_lowerbound" "vars_upperbound"
              (-1.0e19) 1.0e19 0 (6 * N)
              (Dvector indeterminate (8 * N - 2),
               Dvector indeterminate (8 * N - 2)))
    as [[l1 u1] [Hb1 [Hsl1 [Hsu1 [Hin_1 _]]]]];
    cbn [fst snd] in *; [lia | lia | lia |].
  rewrite Hb1. cbn [bind].
  destruct (set_bounds_loop "vars_lowerbound" "vars_upperbound"
              (-0.436332) 0.436332 (6 * N) (7 * N - 1) (l1, u1))
    as [[l2 u2] [Hb2 [Hsl2 [Hsu2 [Hin_2 Hout_2]]]]];
    cbn [fst snd] in *; [lia | lia | lia |].
  rewrite Hb2. cbn [bind].
  destruct (set_bounds_loop "vars_lowerbound" "vars_upperbound"
              (-1.0) 1.0 (7 * N - 1) (8 * N - 2) (l2, u2))
    as [[l3 u3] [Hb3 [Hsl3 [Hsu3 [Hin_3 Hout_3]]]]];
    cbn [fst snd] in *; [lia | lia | lia |].
  rewrite Hb3. cbn [bind].
  (* bounds of the constraints *)
  destruct (set_bounds_loop "constraints_lowerbound" "constraints_upperbound"
              0 0 0 (6 * N)
              (Dvector indeterminate (6 * N),
               Dvector indeterminate (6 * N)))
    as [[c1 d1] [Hb4 [Hsc1 [Hsd1 [Hin_4 _]]]]];
    cbn [fst snd] in *; [lia | lia | lia |].
  rewrite Hb4. cbn [bind].
  rewrite (vset_ok "constraints_lowerbound" _ 0) by lia. cbn [bind].
  rewrite (vset_ok "constraints_lowerbound" _ N)
    by (rewrite ?size_list_update; lia). cbn [bind].
  rewrite (vset_ok "constraints_lowerbound" _ (2 * N))
    by (rewrite ?size_list_update; lia). cbn [bind].
  rewrite (vset_ok "constraints_lowerbound" _ (3 * N))
    by (rewrite ?size_list_update; lia). cbn [bind].
  rewrite (vset_ok "constraints_lowerbound" _ (4 * N))
    by (rewrite ?size_list_update; lia). cbn [bind].
  rewrite (vset_ok "constraints_lowerbound" _ (5 * N))
    by (rewrite ?size_list_update; lia). cbn [bind].
  rewrite (vset_ok "constraints_upperbound" _ 0) by lia. cbn [bind].
  rewrite (vset_ok "constraints_upperbound" _ N)
    by (rewrite ?size_list_update; lia). cbn [bind].
  rewrite (vset_ok "constraints_upperbound" _ (2 * N))
    by (rewrite ?size_list_update; lia). cbn [bind].
  rewrite (vset_ok "constraints_upperbound" _ (3 * N))
    by (rewrite ?size_list_update; lia). cbn [bind].
  rewrite (vset_ok "constraints_upperbound" _ (4 * N))
    by (rewrite ?size_list_update; lia). cbn [bind].
  rewrite (vset_ok "constraints_upperbound" _ (5 * N))
    by (rewrite ?size_list_update; lia). cbn [bind].
  destruct (seed_spec N x0 c1) as [Hsc [Hbc Hoc]]; [lia | lia |].
  destruct (seed_spec N x0 d1) as [Hsd [Hbd Hod]]; [lia | lia |].
  eexists. split; [reflexivity |]. cbn [problem.vars problem.vars_lowerbound
    problem.vars_upperbound problem.constraints_lowerbound
    problem.constraints_upperbound].
  split; [| split].
  - split; [lia |]. split; [exact Hbv |].
    intros j Hj Hother. rewrite Hov by (lia || assumption).
    rewrite Hin1 by lia. lra.
  - split; [lia |]. split; [lia |]. split; [| split].
    + intros j Hj.
      destruct (Hout_3 j) as [-> ->]; [lia | lia |].
      destruct (Hout_2 j) as [-> ->]; [lia | lia |].
      apply Hin_1. lia.
    + intros j Hj.
      destruct (Hout_3 j) as [-> ->]; [lia | lia |].
      apply Hin_2. lia.
    + intros j Hj. apply Hin_3. lia.
  - split; [lia |]. split; [lia |]. split.
    + split; [exact Hbc |].
      intros j Hj Hother. rewrite Hoc by (lia || assumption).
      apply Hin_4. lia.
    + split; [exact Hbd |].
      intros j Hj Hother. rewrite Hod by (lia || assumption).
      apply Hin_4. lia.
Qed.

End Setup.

Lemma range_succ (n : Z) : 0 <= n -> range (n + 1) = range n ++ [n].
Proof.
  intros H. unfold range.
  replace (Z.to_nat (n + 1)) with (S (Z.to_nat n)) by lia.
  rewrite seq_S, map_app. simpl. now rewrite Z2Nat.id.
Qed.

Lemma block_of_succ (v : vector) (start n : Z) :
  0 <= n ->
  block_of v start (n + 1) = block_of v start n ++ [at_index v (start + n)].
Proof.
  intros H. unfold block_of. rewrite range_succ by assumption.
  now rewrite map_app.
Qed.

Lemma length_block_of (v : vector) (start n : Z) :
  0 <= n -> size (block_of v start n) = n.
Proof.
  intros H. unfold size, block_of, range.
  rewrite !length_map, length_seq. lia.
Qed.

Lemma is_success_true (s : status_type) : is_success s = true <-> s = success.
Proof. destruct s; simpl; split; intros H; congruence. Qed.

Lemma is_success_false (s : status_type) : s <> success -> is_success s = false.
Proof. destruct s; simpl; intros H; congruence. Qed.

Section Finish.

Variable N : Z.
Variable solution : solve_result.t.
Variables mpc_x mpc_y : vector.

Hypothesis N_ge : 2 <= N.
Hypothesis N_fits : horizon_fits N.
Hypothesis solution_size : size (solve_result.x solution) = n_vars N.

Let sx : vector := solve_result.x solution.

Let sx_size : size sx = 8 * N - 2.
Proof. unfold sx. rewrite solution_size. now apply n_vars_eq. Qed.

Let N_small : N * 8 < SIZE_MODULUS - 2.
Proof. now apply horizon_small. Qed.

(** Lines 259-262: the x block and the y block of the solution are
    pushed on [mpc_x] and [mpc_y]. *)
Lemma push_prediction_loop :
  for_loop 0 N (push_prediction N solution) (mpc_x, mpc_y)
  = Ok (mpc_x ++ block_of sx 0 N, mpc_y ++ block_of sx N N).
Proof.
  destruct (for_loop_invariant
              (fun i (m : vector * vector) =>
                 m = (mpc_x ++ block_of sx 0 i, mpc_y ++ block_of sx N i))
              0 N (push_prediction N solution) (mpc_x, mpc_y))
    as [m [Hrun Hm]].
  - lia.
  - unfold block_of, range. simpl. now rewrite !app_nil_r.
  - intros i m Hi ->. unfold push_prediction. fold sx.
    rewrite (y_start_eq N N_ge N_fits). unfold x_start.
    rewrite (vget_at "solution.x" sx _ (0 + i)) by (rewrite ?sz_small; lia).
    cbn [bind].
    rewrite (vget_at "solution.x" sx _ (N + i)) by (rewrite ?sz_small; lia).
    cbn [bind].
    eexists. split; [reflexivity |].
    now rewrite !block_of_succ, !app_assoc by lia.
  - now rewrite Hrun, Hm.
Qed.

Lemma Solve_finish_success :
  solve_result.status solution = success ->
  Solve_finish N solution mpc_x mpc_y
  = Ok ([at_index sx (0 * N + 1); at_index sx (1 * N + 1);
         at_index sx (2 * N + 1); at_index sx (3 * N + 1);
         at_index sx (4 * N + 1); at_index sx (5 * N + 1);
         at_index sx (delta_start N); at_index sx (a_start N);
         solve_result.obj_value solution],
        mpc_x ++ block_of sx 0 N, mpc_y ++ block_of sx N N).
Proof.
  intros Hok. unfold Solve_finish.
  rewrite push_prediction_loop. cbn [bind].
  rewrite Hok. cbn [is_success andb negb]. fold sx.
  pose proof (delta_start_eq N N_ge N_fits) as Hd.
  pose proof (a_start_eq N N_ge N_fits) as Ha.
  rewrite (y_start_eq N N_ge N_fits), (psi_start_eq N N_ge N_fits),
    (v_start_eq N N_ge N_fits), (cte_start_eq N N_ge N_fits),
    (epsi_start_eq N N_ge N_fits).
  unfold x_start.
  rewrite (vget_at "solution.x" sx _ (0 * N + 1)) by (rewrite ?sz_small; lia).
  cbn [bind].
  rewrite (vget_at "solution.x" sx _ (1 * N + 1)) by (rewrite ?sz_small; lia).
  cbn [bind].
  rewrite (vget_at "solution.x" sx _ (2 * N + 1)) by (rewrite ?sz_small; lia).
  cbn [bind].
  rewrite (vget_at "solution.x" sx _ (3 * N + 1)) by (rewrite ?sz_small; lia).
  cbn [bind].
  rewrite (vget_at "solution.x" sx _ (4 * N + 1)) by (rewrite ?sz_small; lia).
  cbn [bind].
  rewrite (vget_at "solution.x" sx _ (5 * N + 1)) by (rewrite ?sz_small; lia).
  cbn [bind].
  rewrite (vget_ok "solution.x" sx (delta_start N)) by lia. cbn [bind].
  rewrite (vget_ok "solution.x" sx (a_start N)) by lia. cbn [bind].
  reflexivity.
Qed.

Lemma Solve_finish_failure :
  solve_result.status solution <> success ->
  Solve_finish N solution mpc_x mpc_y = Exit EXIT_FAILURE.
Proof.
  intros Hfail. unfold Solve_finish.
  rewrite push_prediction_loop. cbn [bind].
  rewrite (is_success_false _ Hfail). reflexivity.
Qed.

End Finish.

(** ** The run of [transform_map_coord] *)

Lemma at_index_map_range (g : Z -> R) (n i : Z) :
  0 <= i < n -> at_index (map g (range n)) i = g i.
Proof.
  intros H. unfold at_index, range. rewrite map_map.
  rewrite (nth_indep _ 0%R (g (Z.of_nat 0))) by (rewrite length_map, length_seq; lia).
  rewrite (map_nth (fun k => g (Z.of_nat k))).
  rewrite seq_nth by lia. f_equal. lia.
Qed.

Lemma size_map_range (g : Z -> R) (n : Z) : 0 <= n -> size (map g (range n)) = n.
Proof.
  intros H. unfold size, range. rewrite !length_map, length_seq. lia.
Qed.

Lemma map_at_index_range (v : vector) : map (at_index v) (range (size v)) = v.
Proof.
  apply (nth_ext _ _ 0%R 0%R).
  - pose proof (size_map_range (at_index v) (size v) (size_nonneg v)) as H.
    unfold size in H. unfold size. lia.
  - intros n Hn.
    assert (Hlen : Z.of_nat n < size v).
    { pose proof (size_map_range (at_index v) (size v) (size_nonneg v)) as H.
      unfold size in H at 1. lia. }
    pose proof (at_index_map_range (at_index v) (size v) (Z.of_nat n)) as H.
    unfold at_index at 1 3 in H. rewrite Nat2Z.id in H. apply H. lia.
Qed.

(** A loop that pushes [gx i] and [gy i] on a pair of vectors. *)
Lemma collect_loop (body : Z -> vector * vector -> outcome (vector * vector))
    (gx gy : Z -> R) (n : Z) :
  0 <= n ->
  (forall i t, 0 <= i < n -> body i t = Ok (fst t ++ [gx i], snd t ++ [gy i])) ->
  for_loop 0 n body ([], []) = Ok (map gx (range n), map gy (range n)).
Proof.
  intros Hn Hbody.
  destruct (for_loop_invariant
              (fun i (t : vector * vector) =>
                 t = (map gx (range i), map gy (range i)))
              0 n body ([], [])) as [t [Hrun Ht]].
  - assumption.
  - reflexivity.
  - intros i t Hi ->. rewrite Hbody by assumption. cbn [fst snd].
    eexists. split; [reflexivity |].
    now rewrite range_succ, !map_app by lia.
  - now rewrite Hrun, Ht.
Qed.

Section Transform.

Variables xvals yvals : vector.
Variables vehicle_x vehicle_y vehicle_theta : R.

Hypothesis same_size : size yvals = size xvals.

Let cos_theta : R := cos (vehicle_theta - M_PI / 2).
Let sin_theta : R := sin (vehicle_theta - M_PI / 2).

Lemma transform_map_coord_run :
  transform_map_coord xvals yvals vehicle_x vehicle_y vehicle_theta
  = Ok (map (fun i => - (at_index xvals i - vehicle_x) * sin_theta
                      + (at_index yvals i - vehicle_y) * cos_theta)%R
          (range (size xvals)),
        map (fun i => - (at_index xvals i - vehicle_x) * cos_theta
                      - (at_index yvals i - vehicle_y) * sin_theta)%R
          (range (size xvals))).
Proof.
  unfold transform_map_coord. cbv zeta.
  apply collect_loop; [apply size_nonneg |].
  intros i [tx ty] Hi. unfold transform_point.
  rewrite !vget_ok by lia. reflexivity.
Qed.

Lemma unit_circle : (sin_theta * sin_theta + cos_theta * cos_theta = 1)%R.
Proof.
  unfold sin_theta, cos_theta.
  pose proof (sin2_cos2 (vehicle_theta - M_PI / 2)) as H.
  unfold Rsqr in H. exact H.
Qed.

End Transform.

(** ** The run of [polyfit] *)

Lemma length_row_update (A : matrix) (n : nat) (r : vector) :
  List.length (row_update A n r) = List.length A.
Proof.
  revert n. induction A as [|h t IH]; intros [|n]; simpl; auto.
Qed.

Lemma nth_row_update_same (A : matrix) (n : nat) (r d : vector) :
  (n < List.length A)%nat -> nth n (row_update A n r) d = r.
Proof.
  revert n. induction A as [|h t IH]; intros [|n] H; simpl in *;
    try lia; auto. apply IH. lia.
Qed.

Lemma nth_row_update_other (A : matrix) (n m : nat) (r d : vector) :
  n <> m -> nth m (row_update A n r) d = nth m A d.
Proof.
  revert n m. induction A as [|h t IH]; intros [|n] [|m] H; simpl;
    auto; try congruence.
Qed.

Lemma shape_MatrixXd (indeterminate : R) (r c : Z) :
  0 <= r -> 0 <= c -> shape (MatrixXd indeterminate r c) r c.
Proof.
  intros Hr Hc. unfold shape, MatrixXd, rows. split.
  - rewrite repeat_length. lia.
  - intros i Hi. rewrite nth_repeat_lt by lia. now apply size_repeat.
Qed.

Lemma mget_ok (A : matrix) (r c i j : Z) :
  shape A r c -> 0 <= i < r -> 0 <= j < c -> mget A i j = Ok (entry A i j).
Proof.
  intros [Hr Hc] Hi Hj. unfold mget, entry.
  replace ((0 <=? i) && (i <? rows A)) with true
    by (symmetry; apply andb_true_intro; split;
        [apply Z.leb_le | apply Z.ltb_lt]; lia).
  apply vget_ok. rewrite Hc; lia.
Qed.

(** One write in a matrix changes the entry written and no other. *)
Lemma mset_run (A : matrix) (r c i j : Z) (x : R) :
  shape A r c -> 0 <= i < r -> 0 <= j < c ->
  exists A', mset A i j x = Ok A'
    /\ shape A' r c
    /\ entry A' i j = x
    /\ (forall i' j', 0 <= i' -> 0 <= j' -> i' <> i \/ j' <> j ->
          entry A' i' j' = entry A i' j').
Proof.
  intros [Hr Hc] Hi Hj. unfold mset.
  replace ((0 <=? i) && (i <? rows A)) with true
    by (symmetry; apply andb_true_intro; split;
        [apply Z.leb_le | apply Z.ltb_lt]; lia).
  rewrite vset_ok by (rewrite Hc; lia). cbn [bind].
  eexists. split; [reflexivity |].
  unfold rows in Hr. split; [| split].
  - split.
    + unfold rows. rewrite length_row_update. assumption.
    + intros i' Hi'. destruct (Z.eq_dec i' i) as [-> | Hne].
      * rewrite nth_row_update_same by lia.
        rewrite size_list_update. now apply Hc.
      * rewrite nth_row_update_other by lia. now apply Hc.
  - unfold entry. rewrite nth_row_update_same by lia.
    apply at_index_update_same. rewrite Hc; lia.
  - intros i' j' Hi' Hj' Hne. unfold entry.
    destruct (Z.eq_dec i' i) as [-> | Hrow].
    + rewrite nth_row_update_same by lia.
      apply at_index_update_other; lia.
    + now rewrite nth_row_update_other by lia.
Qed.

Section Fit.

Variable indeterminate : R.
Variable householderQr_solve : matrix -> vector -> vector.
Variables xvals yvals : vector.
Variable order : Z.

Hypothesis order_ge : 1 <= order.

Let n : Z := size xvals.

(** Lines 296-298: the first column is set to one. *)
Lemma first_column_loop (A : matrix) :
  shape A n (order + 1) ->
  exists A', for_loop 0 n (fun i B => mset B i 0 1.0%R) A = Ok A'
    /\ shape A' n (order + 1)
    /\ forall j, 0 <= j < n -> entry A' j 0 = 1%R.
Proof.
  intros HA.
  apply (for_loop_invariant
           (fun i B => shape B n (order + 1)
                       /\ forall j, 0 <= j < i -> entry B j 0 = 1%R)).
  - apply size_nonneg.
  - split; [assumption | intros j Hj; lia].
  - intros i B Hi [HB Hone].
    destruct (mset_run B n (order + 1) i 0 1.0%R HB) as [B' [Hrun [HB' [Hnew Hold]]]];
      [lia | lia |].
    exists B'. split; [assumption |]. split; [assumption |].
    intros j Hj. destruct (Z.eq_dec j i) as [-> | Hne].
    + rewrite Hnew. lra.
    + rewrite Hold by lia. apply Hone. lia.
Qed.

(** Lines 301-303: the powers of [xvals(j)] along row [j]. *)
Lemma powers_loop (j : Z) (A : matrix) :
  0 <= j < n ->
  shape A n (order + 1) ->
  entry A j 0 = 1%R ->
  exists A', for_loop 0 order (next_power xvals j) A = Ok A'
    /\ shape A' n (order + 1)
    /\ (forall k, 0 <= k <= order ->
          entry A' j k = (at_index xvals j ^ Z.to_nat k)%R)
    /\ (forall j' k, 0 <= j' -> 0 <= k -> j' <> j ->
          entry A' j' k = entry A j' k).
Proof.
  intros Hj HA Hone.
  destruct (for_loop_invariant
              (fun i B =>
                 shape B n (order + 1)
                 /\ (forall k, 0 <= k <= i ->
                       entry B j k = (at_index xvals j ^ Z.to_nat k)%R)
                 /\ (forall j' k, 0 <= j' -> 0 <= k -> j' <> j ->
                       entry B j' k = entry A j' k))
              0 order (next_power xvals j) A) as [A' [Hrun HA']].
  - lia.
  - split; [assumption |]. split; [| reflexivity].
    intros k Hk. replace k with 0 by lia. simpl. assumption.
  - intros i B Hi [HB [Hpow Hrest]]. unfold next_power.
    rewrite (mget_ok B n (order + 1)) by (assumption || lia). cbn [bind].
    rewrite vget_ok by (fold n; lia). cbn [bind].
    destruct (mset_run B n (order + 1) j (i + 1)
                (entry B j i * at_index xvals j)%R HB)
      as [B' [Hset [HB' [Hnew Hold]]]]; [lia | lia |].
    exists B'. split; [assumption |]. split; [assumption |]. split.
    + intros k Hk. destruct (Z.eq_dec k (i + 1)) as [-> | Hne].
      * rewrite Hnew, Hpow by lia.
        replace (Z.to_nat (i + 1)) with (S (Z.to_nat i)) by lia.
        simpl. ring.
      * rewrite Hold by lia. apply Hpow. lia.
    + intros j' k Hj' Hk Hne. rewrite Hold by lia. now apply Hrest.
  - exists A'. split; [assumption |]. exact HA'.
Qed.

(** Lines 300-304: every row holds the powers of its abscissa. *)
Lemma rows_loop (A : matrix) :
  shape A n (order + 1) ->
  (forall j, 0 <= j < n -> entry A j 0 = 1%R) ->
  exists A',
    for_loop 0 n (fun j B => for_loop 0 order (next_power xvals j) B) A = Ok A'
    /\ vandermonde A' xvals order.
Proof.
  intros HA Hone.
  destruct (for_loop_invariant
              (fun i B =>
                 shape B n (order + 1)
                 /\ (forall j k, 0 <= j < i -> 0 <= k <= order ->
                       entry B j k = (at_index xvals j ^ Z.to_nat k)%R)
                 /\ (forall j, i <= j < n -> entry B j 0 = 1%R))
              0 n (fun j B => for_loop 0 order (next_power xvals j) B) A)
    as [A' [Hrun [HA' [Hpow _]]]].
  - apply size_nonneg.
  - split; [assumption |]. split; [intros j k Hj; lia |].
    intros j Hj. apply Hone. lia.
  - intros i B Hi [HB [Hpow Hfirst]].
    destruct (powers_loop i B) as [B' [Hrun [HB' [Hrow Hrest]]]];
      [lia | assumption | apply Hfirst; lia |].
    exists B'. split; [assumption |]. split; [assumption |]. split.
    + intros j k Hj Hk. destruct (Z.eq_dec j i) as [-> | Hne].
      * now apply Hrow.
      * rewrite Hrest by lia. apply Hpow; lia.
    + intros j Hj. rewrite Hrest by lia. apply Hfirst. lia.
  - exists A'. split; [assumption |]. split; [assumption |].
    intros j k Hj Hk. apply Hpow; assumption.
Qed.

End Fit.

(** ** Reads of [coeffs] *)

Lemma Ok_no_fault {A : Type} (a : A) : ~ coeffs_fault (Ok a).
Proof. intros [i H]. discriminate. Qed.

Lemma bind_no_fault {A B : Type} (m : outcome A) (k : A -> outcome B) :
  ~ coeffs_fault m -> (forall a, ~ coeffs_fault (k a)) ->
  ~ coeffs_fault (bind m k).
Proof.
  intros Hm Hk. destruct m as [a | v i | c | e]; cbn [bind].
  - apply Hk.
  - intros [j H]. apply Hm. exists j. injection H as -> ->. reflexivity.
  - intros [i H]. discriminate.
  - intros [i H]. discriminate.
Qed.

Lemma vget_no_fault (name : string) (v : vector) (i : Z) :
  name <> "coeffs"%string -> ~ coeffs_fault (vget name v i).
Proof.
  intros Hname [k H]. unfold vget in H.
  destruct (in_range v i); [discriminate | congruence].
Qed.

Lemma vget_coeffs_no_fault (v : vector) (i : Z) :
  0 <= i < size v -> ~ coeffs_fault (vget "coeffs" v i).
Proof. intros Hi. rewrite vget_ok by assumption. apply Ok_no_fault. Qed.

Lemma vset_no_fault (name : string) (v : vector) (i : Z) (x : R) :
  name <> "coeffs"%string -> ~ coeffs_fault (vset name v i x).
Proof.
  intros Hname [k H]. unfold vset in H.
  destruct (in_range v i); [discriminate | congruence].
Qed.

Lemma vadd_no_fault (name : string) (v : vector) (i : Z) (x : R) :
  name <> "coeffs"%string -> ~ coeffs_fault (vadd name v i x).
Proof.
  intros Hname. unfold vadd. apply bind_no_fault.
  - now apply vget_no_fault.
  - intros a. now apply vset_no_fault.
Qed.

Lemma for_loop_no_fault {St : Type} (lo hi : Z)
    (body : Z -> St -> outcome St) (s : St) :
  (forall i t, ~ coeffs_fault (body i t)) ->
  ~ coeffs_fault (for_loop lo hi body s).
Proof.
  intros Hbody. unfold for_loop.
  generalize (Z.to_nat (hi - lo)) as fuel. intros fuel.
  revert lo s. induction fuel as [|fuel IH]; intros lo s; simpl.
  - apply Ok_no_fault.
  - apply bind_no_fault; [apply Hbody | intros a; apply IH].
Qed.

Ltac no_fault :=
  repeat match goal with
    | |- ~ coeffs_fault (bind _ _) => apply bind_no_fault; [| intro]
    | |- ~ coeffs_fault (vget "coeffs" _ _) =>
        apply vget_coeffs_no_fault; lia
    | |- ~ coeffs_fault (vget _ _ _) => apply vget_no_fault; discriminate
    | |- ~ coeffs_fault (vset _ _ _ _) => apply vset_no_fault; discriminate
    | |- ~ coeffs_fault (vadd _ _ _ _) => apply vadd_no_fault; discriminate
    | |- ~ coeffs_fault (for_loop _ _ _ _) =>
        apply for_loop_no_fault; intros ? ?
    | |- ~ coeffs_fault (Ok _) => apply Ok_no_fault
    end.

(** With four coefficients or more no run of the evaluator stops on a
    read of [coeffs], whatever the horizon and the vectors. *)
Lemma FG_eval_no_coeffs_fault (N : Z) (dt ref_cte ref_epsi ref_v : R)
    (coeffs fg vars : vector) :
  4 <= size coeffs ->
  ~ coeffs_fault (FG_eval N dt ref_cte ref_epsi ref_v coeffs fg vars).
Proof.
  intros Hc.
  unfold FG_eval, FG_eval_cost, initial_constraints, initial_constraint.
  no_fault.
  - unfold cost_reference. no_fault.
  - unfold cost_actuators. no_fault.
  - unfold cost_gaps. no_fault.
  - unfold model_constraints. no_fault.
Qed.

(** ** The reference curve *)

(** For the four coefficients of a fit of order three, the curve of the
    evaluator is the polynomial that [polyeval] evaluates. *)
Lemma polyeval_cubic (coeffs : vector) (x : R) :
  size coeffs = 4 ->
  exists y, polyeval coeffs x = Ok y /\ y = curve coeffs x.
Proof.
  intros H. destruct coeffs as [|c0 [|c1 [|c2 [|c3 [|c4 t]]]]];
    unfold size in H; simpl in H; try lia.
  eexists. split; [reflexivity |].
  unfold curve, at_index. simpl. lra.
Qed.

(** The slope of the evaluator is the derivative of its curve. *)
Lemma slope_is_derivative (coeffs : vector) (x : R) :
  derivable_pt_lim (curve coeffs) x (slope coeffs x).
Proof.
  unfold slope.
  set (c0 := at_index coeffs 0). set (c1 := at_index coeffs 1).
  set (c2 := at_index coeffs 2). set (c3 := at_index coeffs 3).
  change (curve coeffs)
    with (fct_cte c0 + mult_real_fct c1 id + mult_real_fct c2 (pow_fct 2)
          + mult_real_fct c3 (pow_fct 3))%F.
  replace (c1 + 2 * c2 * x + 3 * c3 * x ^ 2)%R
    with (0 + c1 * 1 + c2 * (INR 2 * x ^ Nat.pred 2)
          + c3 * (INR 3 * x ^ Nat.pred 3))%R by (simpl; ring).
  repeat apply derivable_pt_lim_plus.
  - apply derivable_pt_lim_const.
  - apply derivable_pt_lim_scal. apply derivable_pt_lim_id.
  - apply derivable_pt_lim_scal. apply derivable_pt_lim_pow.
  - apply derivable_pt_lim_scal. apply derivable_pt_lim_pow.
Qed.

(** ** The properties of the trajectory evaluator *)

Lemma horizon_fits_2 : horizon_fits 2.
Proof. unfold horizon_fits, INT_MAX. lia. Qed.

Lemma horizon_fits_baseline : horizon_fits Baseline.N.
Proof. unfold horizon_fits, INT_MAX, Baseline.N. lia. Qed.

Lemma steps_cover_all (N : Z) : 2 <= N -> steps_cover N (N - 1).
Proof.
  intros HN j Hj. unfold constraint_entry.
  assert (Hblock : 0 <= j < N \/ N <= j < 2 * N \/ 2 * N <= j < 3 * N
                   \/ 3 * N <= j < 4 * N \/ 4 * N <= j < 5 * N
                   \/ 5 * N <= j < 6 * N) by lia.
  destruct Hblock as [H | [H | [H | [H | [H | H]]]]].
  - destruct (Z.eq_dec j 0) as [-> | Hne];
      [left; exists 0; lia | right; exists 0, (j - 1); lia].
  - destruct (Z.eq_dec j N) as [-> | Hne];
      [left; exists 1; lia | right; exists 1, (j - N - 1); lia].
  - destruct (Z.eq_dec j (2 * N)) as [-> | Hne];
      [left; exists 2; lia | right; exists 2, (j - 2 * N - 1); lia].
  - destruct (Z.eq_dec j (3 * N)) as [-> | Hne];
      [left; exists 3; lia | right; exists 3, (j - 3 * N - 1); lia].
  - destruct (Z.eq_dec j (4 * N)) as [-> | Hne];
      [left; exists 4; lia | right; exists 4, (j - 4 * N - 1); lia].
  - destruct (Z.eq_dec j (5 * N)) as [-> | Hne];
      [left; exists 5; lia | right; exists 5, (j - 5 * N - 1); lia].
Qed.

(** C2, as written in the design document, fails: with the steps [i] taken
    in [[0, N - 2)], the six initial entries and the entries of the steps
    [i + 1] leave out the last entry of every block. At the horizon of the
    source, [N = 25], entry 24 is neither an initial entry nor the entry
    of a step [i + 1] with [i < 23]. *)
Lemma steps_below_N_minus_2_leave_entries_out :
  ~ steps_cover Baseline.N (Baseline.N - 2).
Proof.
  unfold steps_cover, Baseline.N, constraint_entry. intros H.
  destruct (H 24) as [[b [Hb E]] | [b [i [Hb [Hi E]]]]]; [lia | |].
  - block b; lia.
  - block b; lia.
Qed.

(** C2, amended. For each step [i] in [[0, N - 1)] the evaluator sets the
    constraint entries of step [i + 1] (held at [fg[1 + entry]]) to the
    residuals of the six update equations for x, y, psi, v, cte and epsi,
    with the curve and the arc tangent of its slope taken at [x[i]]; the
    six initial entries hold the state at step 0; and the initial entries
    together with these [6 (N - 1)] residuals are all the [6 N] constraint
    entries. *)
Theorem FG_eval_sets_every_defect (N : Z) (dt ref_cte ref_epsi ref_v : R)
    (coeffs fg vars : vector) :
  2 <= N -> horizon_fits N ->
  size vars = n_vars N -> size fg = 1 + n_constraints N ->
  4 <= size coeffs ->
  exists g, FG_eval N dt ref_cte ref_epsi ref_v coeffs fg vars = Ok g
    /\ size g = 1 + 6 * N
    /\ (forall b, 0 <= b < 6 ->
          at_index g (1 + constraint_entry N b 0) = at_index vars (b * N))
    /\ (forall i, 0 <= i < N - 1 ->
          at_index g (1 + constraint_entry N 0 (i + 1)) = residual_x N dt vars i
          /\ at_index g (1 + constraint_entry N 1 (i + 1))
             = residual_y N dt vars i
          /\ at_index g (1 + constraint_entry N 2 (i + 1))
             = residual_psi N dt vars i
          /\ at_index g (1 + constraint_entry N 3 (i + 1))
             = residual_v N dt vars i
          /\ at_index g (1 + constraint_entry N 4 (i + 1))
             = residual_cte N dt coeffs vars i
          /\ at_index g (1 + constraint_entry N 5 (i + 1))
             = residual_epsi N dt coeffs vars i)
    /\ steps_cover N (N - 1).
Proof.
  intros HN Hfits Hvars Hfg Hc.
  destruct (FG_eval_run N dt ref_cte ref_epsi ref_v coeffs vars HN Hfits
              Hvars fg Hc Hfg) as [g [Hrun [Hsize [_ [Hinit Hres]]]]].
  exists g. split; [assumption |]. split.
  - rewrite Hsize, Hfg. rewrite n_constraints_eq by assumption. reflexivity.
  - split; [assumption |]. split; [| now apply steps_cover_all].
    intros i Hi.
    pose proof (Hres 0 i) as H0. pose proof (Hres 1 i) as H1.
    pose proof (Hres 2 i) as H2. pose proof (Hres 3 i) as H3.
    pose proof (Hres 4 i) as H4. pose proof (Hres 5 i) as H5.
    cbn [residual] in *.
    repeat split; [apply H0 | apply H1 | apply H2 | apply H3 | apply H4
                  | apply H5]; lia.
Qed.

Lemma FG_eval_sets_every_defect_witness :
  exists g,
    FG_eval 2 0.05 0 0 40 [1; 2; 3; 4]%R (repeat 0%R 13) (repeat 1%R 14) = Ok g
    /\ size g = 1 + 6 * 2.
Proof.
  destruct (FG_eval_sets_every_defect 2 0.05 0 0 40 [1; 2; 3; 4]%R
              (repeat 0%R 13) (repeat 1%R 14)) as [g [Hrun [Hsize _]]].
  - lia.
  - exact horizon_fits_2.
  - reflexivity.
  - reflexivity.
  - unfold size. simpl. lia.
  - exists g. split; assumption.
Defined.

(** C3. For every decision vector the cost that the evaluator leaves in
    [fg[0]] is the sum over the [N] steps of the horizon of
    [(cte - ref_cte)^2 + (epsi - ref_epsi)^2 + (v - ref_v)^2], plus the sum
    over the [N - 1] actuation steps of [delta^2 + a^2], plus the sum over
    the [N - 2] pairs of consecutive actuations of
    [(delta[i+1] - delta[i])^2 + (a[i+1] - a[i])^2]; every term has
    weight one. *)
Theorem FG_eval_cost_is_unweighted_sum (N : Z) (dt ref_cte ref_epsi ref_v : R)
    (coeffs fg vars : vector) :
  2 <= N -> horizon_fits N ->
  size vars = n_vars N -> size fg = 1 + n_constraints N ->
  4 <= size coeffs ->
  exists g, FG_eval N dt ref_cte ref_epsi ref_v coeffs fg vars = Ok g
    /\ at_index g 0
       = (sum_upto (Z.to_nat N)
            (fun i => (cte_ N vars i - ref_cte) ^ 2
                      + (epsi_ N vars i - ref_epsi) ^ 2
                      + (v_ N vars i - ref_v) ^ 2)
          + sum_upto (Z.to_nat (N - 1))
              (fun i => (delta_ N vars i) ^ 2 + (a_ N vars i) ^ 2)
          + sum_upto (Z.to_nat (N - 2))
              (fun i => (delta_ N vars (i + 1) - delta_ N vars i) ^ 2
                        + (a_ N vars (i + 1) - a_ N vars i) ^ 2))%R.
Proof.
  intros HN Hfits Hvars Hfg Hc.
  destruct (FG_eval_run N dt ref_cte ref_epsi ref_v coeffs vars HN Hfits
              Hvars fg Hc Hfg) as [g [Hrun [_ [Hcost _]]]].
  exists g. split; [assumption |]. exact Hcost.
Qed.

Lemma FG_eval_cost_is_unweighted_sum_witness :
  exists g,
    FG_eval 2 0.05 0 0 40 [1; 2; 3; 4]%R (repeat 0%R 13) (repeat 1%R 14) = Ok g
    /\ at_index g 0 = cost_formula 2 0 0 40 (repeat 1%R 14).
Proof.
  destruct (FG_eval_cost_is_unweighted_sum 2 0.05 0 0 40 [1; 2; 3; 4]%R
              (repeat 0%R 13) (repeat 1%R 14)) as [g [Hrun Hcost]].
  - lia.
  - exact horizon_fits_2.
  - reflexivity.
  - reflexivity.
  - unfold size. simpl. lia.
  - exists g. split; [assumption | exact Hcost].
Defined.

(** C10. The evaluator reads the coefficients 0 to 3 in every round of its
    loop over the model constraints, whatever the length of [coeffs]: with
    fewer than four coefficients the run stops on a read of [coeffs]
    outside its range, with four or more every access of the run is in
    range, and then no run at all stops on a read of [coeffs]. *)
Theorem FG_eval_needs_four_coefficients (N : Z)
    (dt ref_cte ref_epsi ref_v : R) (coeffs fg vars : vector) :
  2 <= N -> horizon_fits N ->
  size vars = n_vars N -> size fg = 1 + n_constraints N ->
  (size coeffs < 4 ->
     FG_eval N dt ref_cte ref_epsi ref_v coeffs fg vars
     = OutOfRange "coeffs" (size coeffs))
  /\ (4 <= size coeffs ->
        returns_to_caller (FG_eval N dt ref_cte ref_epsi ref_v coeffs fg vars))
  /\ (4 <= size coeffs ->
        forall fg' vars',
          ~ coeffs_fault (FG_eval N dt ref_cte ref_epsi ref_v coeffs fg' vars')).
Proof.
  intros HN Hfits Hvars Hfg. split; [| split].
  - intros Hc. now apply FG_eval_short_coeffs.
  - intros Hc.
    destruct (FG_eval_run N dt ref_cte ref_epsi ref_v coeffs vars HN Hfits
                Hvars fg Hc Hfg) as [g [Hrun _]].
    exists g. exact Hrun.
  - intros Hc fg' vars'. now apply FG_eval_no_coeffs_fault.
Qed.

Lemma FG_eval_needs_four_coefficients_witness :
  FG_eval 2 0.05 0 0 40 [1; 2; 3]%R (repeat 0%R 13) (repeat 1%R 14)
  = OutOfRange "coeffs" 3.
Proof.
  apply (FG_eval_needs_four_coefficients 2 0.05 0 0 40 [1; 2; 3]%R
           (repeat 0%R 13) (repeat 1%R 14)).
  - lia.
  - exact horizon_fits_2.
  - reflexivity.
  - reflexivity.
  - unfold size. simpl. lia.
Defined.

(** ** The properties of [MPC::Solve] *)

(** C4. For every horizon of two steps or more, the decision vector that
    [MPC::Solve] builds, and each of its two bound vectors, has length
    [6 N + 2 (N - 1)]; the two bound vectors of the constraints have
    length [6 N]; and the blocks start where the blocks before them end:
    six blocks of [N] entries for x, y, psi, v, cte and epsi, then
    [N - 1] entries for delta and [N - 1] for a. *)
Theorem Solve_vector_lengths (N : Z) (indeterminate : R) (x0 : vector) :
  2 <= N -> horizon_fits N -> 6 <= size x0 ->
  exists p, Solve_setup N indeterminate x0 = Ok p
    /\ size (problem.vars p) = 6 * N + 2 * (N - 1)
    /\ size (problem.vars_lowerbound p) = 6 * N + 2 * (N - 1)
    /\ size (problem.vars_upperbound p) = 6 * N + 2 * (N - 1)
    /\ size (problem.constraints_lowerbound p) = 6 * N
    /\ size (problem.constraints_upperbound p) = 6 * N
    /\ n_vars N = 6 * N + 2 * (N - 1)
    /\ n_constraints N = 6 * N
    /\ x_start = 0
    /\ y_start N = x_start + N
    /\ psi_start N = y_start N + N
    /\ v_start N = psi_start N + N
    /\ cte_start N = v_start N + N
    /\ epsi_start N = cte_start N + N
    /\ delta_start N = epsi_start N + N
    /\ a_start N = delta_start N + (N - 1)
    /\ n_vars N = a_start N + (N - 1).
Proof.
  intros HN Hfits Hx0.
  destruct (Solve_setup_run N indeterminate x0 HN Hfits Hx0)
    as [p [Hrun [[Hv _] [[Hl [Hu _]] [Hcl [Hcu _]]]]]].
  exists p. rewrite Hv, Hl, Hu, Hcl, Hcu.
  rewrite (n_vars_eq N HN Hfits), (n_constraints_eq N HN Hfits),
    (a_start_eq N HN Hfits), (delta_start_eq N HN Hfits),
    (epsi_start_eq N HN Hfits), (cte_start_eq N HN Hfits),
    (v_start_eq N HN Hfits), (psi_start_eq N HN Hfits),
    (y_start_eq N HN Hfits).
  unfold x_start. repeat split; try assumption; lia.
Qed.

Lemma Solve_vector_lengths_witness :
  exists p, Solve_setup Baseline.N 0 [0; 0; 0; 10; 1; 2]%R = Ok p
    /\ size (problem.vars p) = 198
    /\ size (problem.constraints_lowerbound p) = 150.
Proof.
  destruct (Solve_vector_lengths Baseline.N 0 [0; 0; 0; 10; 1; 2]%R)
    as [p [Hrun [Hv [_ [_ [Hc _]]]]]].
  - unfold Baseline.N. lia.
  - exact horizon_fits_baseline.
  - unfold size. simpl. lia.
  - exists p. split; [assumption |]. split; assumption.
Defined.

(** C5. For every input state, the two bound vectors of the constraints
    that [MPC::Solve] builds hold, at the start of each of the six state
    blocks, the component of the input state of that block, the same in
    the lower and in the upper bound, and zero in every other entry. *)
Theorem Solve_constraint_bounds_pin_state (N : Z) (indeterminate : R)
    (x0 : vector) :
  2 <= N -> horizon_fits N -> 6 <= size x0 ->
  exists p, Solve_setup N indeterminate x0 = Ok p
    /\ size (problem.constraints_lowerbound p) = n_constraints N
    /\ size (problem.constraints_upperbound p) = n_constraints N
    /\ (forall b, 0 <= b < 6 ->
          at_index (problem.constraints_lowerbound p) (b * N) = at_index x0 b
          /\ at_index (problem.constraints_upperbound p) (b * N)
             = at_index x0 b)
    /\ (forall j, 0 <= j < n_constraints N ->
          (forall b, 0 <= b < 6 -> j <> b * N) ->
          at_index (problem.constraints_lowerbound p) j = 0%R
          /\ at_index (problem.constraints_upperbound p) j = 0%R).
Proof.
  intros HN Hfits Hx0.
  destruct (Solve_setup_run N indeterminate x0 HN Hfits Hx0)
    as [p [Hrun [_ [_ [Hcl [Hcu [[Hlb Hlz] [Hub Huz]]]]]]]].
  exists p. rewrite (n_constraints_eq N HN Hfits).
  split; [assumption |]. split; [assumption |]. split; [assumption |].
  split.
  - intros b Hb. split; [now apply Hlb | now apply Hub].
  - intros j Hj Hother. split; [apply Hlz | apply Huz]; (lia || assumption).
Qed.

Lemma Solve_constraint_bounds_pin_state_witness :
  exists p, Solve_setup Baseline.N 0 [0; 0; 0; 10; 1; 2]%R = Ok p
    /\ at_index (problem.constraints_lowerbound p) (3 * Baseline.N) = 10%R
    /\ at_index (problem.constraints_upperbound p) (3 * Baseline.N) = 10%R.
Proof.
  destruct (Solve_constraint_bounds_pin_state Baseline.N 0
              [0; 0; 0; 10; 1; 2]%R) as [p [Hrun [_ [_ [Hpin _]]]]].
  - unfold Baseline.N. lia.
  - exact horizon_fits_baseline.
  - unfold size. simpl. lia.
  - exists p. split; [assumption |]. apply (Hpin 3). lia.
Defined.

(** C6. The bounds of the variables that [MPC::Solve] builds: every state
    entry has the bounds [-1.0e19] and [1.0e19], which stand for no bound;
    every steering entry is bounded to [[-0.436332, 0.436332]]; every
    acceleration entry is bounded to [[-1.0, 1.0]]; and every lower bound
    is the opposite of the upper bound. *)
Theorem Solve_variable_bounds (N : Z) (indeterminate : R) (x0 : vector) :
  2 <= N -> horizon_fits N -> 6 <= size x0 ->
  exists p, Solve_setup N indeterminate x0 = Ok p
    /\ size (problem.vars_lowerbound p) = n_vars N
    /\ size (problem.vars_upperbound p) = n_vars N
    /\ (forall j, 0 <= j < delta_start N ->
          at_index (problem.vars_lowerbound p) j = (-1.0e19)%R
          /\ at_index (problem.vars_upperbound p) j = 1.0e19%R)
    /\ (forall j, delta_start N <= j < a_start N ->
          at_index (problem.vars_lowerbound p) j = (-0.436332)%R
          /\ at_index (problem.vars_upperbound p) j = 0.436332%R)
    /\ (forall j, a_start N <= j < n_vars N ->
          at_index (problem.vars_lowerbound p) j = (-1.0)%R
          /\ at_index (problem.vars_upperbound p) j = 1.0%R)
    /\ (forall j, 0 <= j < n_vars N ->
          at_index (problem.vars_lowerbound p) j
          = (- at_index (problem.vars_upperbound p) j)%R).
Proof.
  intros HN Hfits Hx0.
  destruct (Solve_setup_run N indeterminate x0 HN Hfits Hx0)
    as [p [Hrun [_ [[Hl [Hu [Hstate [Hsteer Hacc]]]] _]]]].
  exists p.
  rewrite (n_vars_eq N HN Hfits), (a_start_eq N HN Hfits),
    (delta_start_eq N HN Hfits).
  split; [assumption |]. split; [assumption |]. split; [assumption |].
  split; [exact Hstate |]. split; [exact Hsteer |]. split; [exact Hacc |].
  intros j Hj.
  assert (Hcases : 0 <= j < 6 * N \/ 6 * N <= j < 7 * N - 1
                   \/ 7 * N - 1 <= j < 8 * N - 2) by lia.
  destruct Hcases as [H | [H | H]].
  - destruct (Hstate j H) as [-> ->]. lra.
  - destruct (Hsteer j H) as [-> ->]. lra.
  - destruct (Hacc j H) as [-> ->]. lra.
Qed.

Lemma Solve_variable_bounds_witness :
  exists p, Solve_setup Baseline.N 0 [0; 0; 0; 10; 1; 2]%R = Ok p
    /\ at_index (problem.vars_lowerbound p) 150 = (-0.436332)%R
    /\ at_index (problem.vars_upperbound p) 150 = 0.436332%R.
Proof.
  destruct (Solve_variable_bounds Baseline.N 0 [0; 0; 0; 10; 1; 2]%R)
    as [p [Hrun [_ [_ [_ [Hsteer _]]]]]].
  - unfold Baseline.N. lia.
  - exact horizon_fits_baseline.
  - unfold size. simpl. lia.
  - exists p. split; [assumption |]. apply (Hsteer 150).
    split; [apply Z.leb_le | apply Z.ltb_lt]; reflexivity.
Defined.

Section Solve_facts.

Variable N : Z.
Variable dt : R.
Variables ref_cte ref_epsi ref_v : R.
Variable indeterminate : R.
Variable ipopt_solve : solver.
Variables x0 coeffs mpc_x mpc_y : vector.
Variable p : problem.t.

Hypothesis N_ge : 2 <= N.
Hypothesis N_fits : horizon_fits N.
Hypothesis setup : Solve_setup N indeterminate x0 = Ok p.

Let solution : solve_result.t :=
  solve_problem N dt ref_cte ref_epsi ref_v ipopt_solve coeffs p.

Hypothesis solution_size : size (solve_result.x solution) = n_vars N.

Lemma Solve_success :
  solve_result.status solution = success ->
  Solve N dt ref_cte ref_epsi ref_v indeterminate ipopt_solve
    x0 coeffs mpc_x mpc_y
  = Ok ([at_index (solve_result.x solution) (0 * N + 1);
         at_index (solve_result.x solution) (1 * N + 1);
         at_index (solve_result.x solution) (2 * N + 1);
         at_index (solve_result.x solution) (3 * N + 1);
         at_index (solve_result.x solution) (4 * N + 1);
         at_index (solve_result.x solution) (5 * N + 1);
         at_index (solve_result.x solution) (delta_start N);
         at_index (solve_result.x solution) (a_start N);
         solve_result.obj_value solution],
        mpc_x ++ block_of (solve_result.x solution) 0 N,
        mpc_y ++ block_of (solve_result.x solution) N N).
Proof.
  intros Hok. unfold Solve. rewrite setup. cbn [bind]. cbv zeta.
  fold solution. now apply Solve_finish_success.
Qed.

Lemma Solve_failure :
  solve_result.status solution <> success ->
  Solve N dt ref_cte ref_epsi ref_v indeterminate ipopt_solve
    x0 coeffs mpc_x mpc_y
  = Exit EXIT_FAILURE.
Proof.
  intros Hfail. unfold Solve. rewrite setup. cbn [bind]. cbv zeta.
  fold solution. now apply Solve_finish_failure.
Qed.

End Solve_facts.

Lemma Exit_not_surfaced {A : Type} (s : Z) : ~ surfaces_failure (@Exit A s).
Proof. intros [[a H] _]. discriminate. Qed.

Lemma AssertionFailed_not_surfaced {A : Type} (c : string) :
  ~ surfaces_failure (@AssertionFailed A c).
Proof. intros [[a H] _]. discriminate. Qed.

(** C7. On a successful solve [MPC::Solve] returns the entries at index 1
    of the six state blocks of the solution, then the entries at
    [delta_start] and at [a_start], then the cost; and it pushes on
    [mpc_x] and [mpc_y] the whole x block and the whole y block of the
    solution, [N] points each. *)
Theorem Solve_reads_back_solution (N : Z) (dt ref_cte ref_epsi ref_v : R)
    (indeterminate : R) (ipopt_solve : solver)
    (x0 coeffs mpc_x mpc_y : vector) (p : problem.t) :
  2 <= N -> horizon_fits N ->
  Solve_setup N indeterminate x0 = Ok p ->
  size (solve_result.x
          (solve_problem N dt ref_cte ref_epsi ref_v ipopt_solve coeffs p))
  = n_vars N ->
  solve_result.status
    (solve_problem N dt ref_cte ref_epsi ref_v ipopt_solve coeffs p)
  = success ->
  let solution :=
    solve_problem N dt ref_cte ref_epsi ref_v ipopt_solve coeffs p in
  let sx := solve_result.x solution in
  Solve N dt ref_cte ref_epsi ref_v indeterminate ipopt_solve
    x0 coeffs mpc_x mpc_y
  = Ok ([at_index sx (x_start + 1); at_index sx (y_start N + 1);
         at_index sx (psi_start N + 1); at_index sx (v_start N + 1);
         at_index sx (cte_start N + 1); at_index sx (epsi_start N + 1);
         at_index sx (delta_start N); at_index sx (a_start N);
         solve_result.obj_value solution],
        mpc_x ++ block_of sx x_start N, mpc_y ++ block_of sx (y_start N) N)
  /\ size (block_of sx x_start N) = N
  /\ size (block_of sx (y_start N) N) = N.
Proof.
  intros HN Hfits Hsetup Hsize Hok solution sx. split.
  - rewrite (Solve_success N dt ref_cte ref_epsi ref_v indeterminate
               ipopt_solve x0 coeffs mpc_x mpc_y p HN Hfits Hsetup Hsize Hok).
    rewrite (y_start_eq N HN Hfits), (psi_start_eq N HN Hfits),
      (v_start_eq N HN Hfits), (cte_start_eq N HN Hfits),
      (epsi_start_eq N HN Hfits).
    unfold x_start. subst sx solution.
    replace (0 * N) with 0 by lia. replace (1 * N) with N by lia.
    reflexivity.
  - split; apply length_block_of; lia.
Qed.

Lemma Solve_reads_back_solution_witness :
  returns_to_caller
    (Solve 2 0.05 0 0 40 0 echo_solver [0; 0; 0; 10; 1; 2]%R [1; 2; 3; 4]%R
       [] []).
Proof.
  eexists.
  eapply (Solve_reads_back_solution 2 0.05 0 0 40 0 echo_solver
            [0; 0; 0; 10; 1; 2]%R [1; 2; 3; 4]%R [] []).
  - lia.
  - exact horizon_fits_2.
  - reflexivity.
  - reflexivity.
  - reflexivity.
Defined.

(** C1, as written in the design document, fails: when the solver reports
    that the iteration limit was reached, [MPC::Solve] ends the process
    with [EXIT_FAILURE]; nothing comes back to the caller. *)
Lemma Solve_failure_is_not_surfaced :
  Solve Baseline.N Baseline.dt Baseline.ref_cte Baseline.ref_epsi
    Baseline.ref_v 0 stalled_solver [0; 0; 0; 10; 1; 2]%R [1; 2; 3; 4]%R [] []
  = Exit EXIT_FAILURE
  /\ ~ surfaces_failure
       (Solve Baseline.N Baseline.dt Baseline.ref_cte Baseline.ref_epsi
          Baseline.ref_v 0 stalled_solver [0; 0; 0; 10; 1; 2]%R
          [1; 2; 3; 4]%R [] []).
Proof.
  assert (HN : 2 <= Baseline.N) by (unfold Baseline.N; lia).
  assert (Hx0 : 6 <= size [0; 0; 0; 10; 1; 2]%R) by (unfold size; simpl; lia).
  destruct (Solve_setup_run Baseline.N 0 [0; 0; 0; 10; 1; 2]%R HN
              horizon_fits_baseline Hx0) as [p [Hrun [[Hv _] _]]].
  assert (E : Solve Baseline.N Baseline.dt Baseline.ref_cte Baseline.ref_epsi
                Baseline.ref_v 0 stalled_solver [0; 0; 0; 10; 1; 2]%R
                [1; 2; 3; 4]%R [] [] = Exit EXIT_FAILURE).
  { apply (Solve_failure _ _ _ _ _ _ _ _ _ _ _ p HN horizon_fits_baseline Hrun).
    - change (size (problem.vars p) = n_vars Baseline.N).
      rewrite Hv. symmetry. now apply n_vars_eq.
    - change (maxiter_exceeded <> success). discriminate. }
  split; [exact E |]. rewrite E. apply Exit_not_surfaced.
Qed.

(** C1, amended. When the solver reports a status other than success,
    [MPC::Solve] ends the process with the status [EXIT_FAILURE]: the call
    does not return to its caller. *)
Theorem Solve_exits_on_solver_failure (N : Z) (dt ref_cte ref_epsi ref_v : R)
    (indeterminate : R) (ipopt_solve : solver)
    (x0 coeffs mpc_x mpc_y : vector) (p : problem.t) :
  2 <= N -> horizon_fits N ->
  Solve_setup N indeterminate x0 = Ok p ->
  size (solve_result.x
          (solve_problem N dt ref_cte ref_epsi ref_v ipopt_solve coeffs p))
  = n_vars N ->
  solve_result.status
    (solve_problem N dt ref_cte ref_epsi ref_v ipopt_solve coeffs p)
  <> success ->
  Solve N dt ref_cte ref_epsi ref_v indeterminate ipopt_solve
    x0 coeffs mpc_x mpc_y
  = Exit EXIT_FAILURE
  /\ terminates_process
       (Solve N dt ref_cte ref_epsi ref_v indeterminate ipopt_solve
          x0 coeffs mpc_x mpc_y)
  /\ ~ returns_to_caller
       (Solve N dt ref_cte ref_epsi ref_v indeterminate ipopt_solve
          x0 coeffs mpc_x mpc_y).
Proof.
  intros HN Hfits Hsetup Hsize Hfail.
  pose proof (Solve_failure N dt ref_cte ref_epsi ref_v indeterminate
                ipopt_solve x0 coeffs mpc_x mpc_y p HN Hfits Hsetup Hsize
                Hfail) as E.
  rewrite E. split; [reflexivity |]. split.
  - left. exists EXIT_FAILURE. reflexivity.
  - intros [a H]. discriminate.
Qed.

Lemma Solve_exits_on_solver_failure_witness :
  terminates_process
    (Solve 2 0.05 0 0 40 0 stalled_solver [0; 0; 0; 10; 1; 2]%R
       [1; 2; 3; 4]%R [] []).
Proof.
  eapply (Solve_exits_on_solver_failure 2 0.05 0 0 40 0 stalled_solver
            [0; 0; 0; 10; 1; 2]%R [1; 2; 3; 4]%R [] []).
  - lia.
  - exact horizon_fits_2.
  - reflexivity.
  - reflexivity.
  - discriminate.
Defined.

(** ** The properties of [polyfit] *)

Section Fit_facts.

Variable indeterminate : R.
Variable householderQr_solve : matrix -> vector -> vector.
Variables xvals yvals : vector.
Variable order : Z.

Hypothesis same_size : size xvals = size yvals.

Lemma polyfit_valid :
  1 <= order <= size xvals - 1 ->
  exists A,
    polyfit indeterminate householderQr_solve xvals yvals order
    = Ok (householderQr_solve A yvals)
    /\ vandermonde A xvals order.
Proof.
  intros Horder. unfold polyfit.
  rewrite (proj2 (Z.eqb_eq _ _) same_size). cbn [negb].
  rewrite (proj2 (Z.leb_le 1 order)) by lia.
  rewrite (proj2 (Z.leb_le order (size xvals - 1))) by lia.
  cbn [andb negb]. cbv zeta.
  assert (Hge : 1 <= order) by lia.
  destruct (first_column_loop xvals order Hge
              (MatrixXd indeterminate (size xvals) (order + 1)))
    as [A1 [Hrun1 [Hshape1 Hone]]].
  { apply shape_MatrixXd; [apply size_nonneg | lia]. }
  rewrite Hrun1. cbn [bind].
  destruct (rows_loop xvals order Hge A1 Hshape1 Hone)
    as [A2 [Hrun2 Hvand]].
  rewrite Hrun2. cbn [bind].
  exists A2. split; [reflexivity | assumption].
Qed.

Lemma polyfit_invalid :
  ~ 1 <= order <= size xvals - 1 ->
  polyfit indeterminate householderQr_solve xvals yvals order
  = AssertionFailed "order >= 1 && order <= xvals.size() - 1".
Proof.
  intros Horder. unfold polyfit.
  rewrite (proj2 (Z.eqb_eq _ _) same_size). cbn [negb].
  destruct (Z.leb_spec 1 order) as [H1 | H1];
    destruct (Z.leb_spec order (size xvals - 1)) as [H2 | H2];
    cbn [andb negb]; try reflexivity.
  exfalso. apply Horder. lia.
Qed.

End Fit_facts.

(** C8, as written in the design document, fails: for three points and
    the order three, [polyfit] stops on its assertion, which ends the
    process; no error comes back to the caller. *)
Lemma polyfit_order_violation_is_not_surfaced :
  polyfit 0 (fun _ yvals => yvals) [1; 2; 3]%R [1; 4; 9]%R 3
  = AssertionFailed "order >= 1 && order <= xvals.size() - 1"
  /\ ~ surfaces_failure
       (polyfit 0 (fun _ yvals => yvals) [1; 2; 3]%R [1; 4; 9]%R 3).
Proof.
  assert (E : polyfit 0 (fun _ yvals => yvals) [1; 2; 3]%R [1; 4; 9]%R 3
              = AssertionFailed "order >= 1 && order <= xvals.size() - 1").
  { apply polyfit_invalid; unfold size; simpl; lia. }
  split; [exact E |]. rewrite E. apply AssertionFailed_not_surfaced.
Qed.

(** C8, amended. [polyfit] asserts [order >= 1] and
    [order <= xvals.size() - 1]: when the caller violates this (for
    example with [order] the number of points) the run stops on the failed
    assertion, which ends the process, and neither an error nor
    coefficients come back to the caller; when the caller respects it,
    [polyfit] returns the least-squares solution of the system whose row
    [j] holds the powers [0] to [order] of [xvals(j)]. *)
Theorem polyfit_asserts_order (indeterminate : R)
    (householderQr_solve : matrix -> vector -> vector)
    (xvals yvals : vector) (order : Z) :
  size xvals = size yvals ->
  (~ 1 <= order <= size xvals - 1 ->
     polyfit indeterminate householderQr_solve xvals yvals order
     = AssertionFailed "order >= 1 && order <= xvals.size() - 1"
     /\ terminates_process
          (polyfit indeterminate householderQr_solve xvals yvals order)
     /\ ~ returns_to_caller
          (polyfit indeterminate householderQr_solve xvals yvals order))
  /\ (1 <= order <= size xvals - 1 ->
        exists A,
          polyfit indeterminate householderQr_solve xvals yvals order
          = Ok (householderQr_solve A yvals)
          /\ vandermonde A xvals order).
Proof.
  intros Hsame. split.
  - intros Horder.
    rewrite (polyfit_invalid indeterminate householderQr_solve xvals yvals
               order Hsame Horder).
    split; [reflexivity |]. split.
    + right. eexists. reflexivity.
    + intros [a H]. discriminate.
  - now apply polyfit_valid.
Qed.

Lemma polyfit_asserts_order_witness :
  terminates_process
    (polyfit 0 (fun _ yvals => yvals) [1; 2; 3]%R [1; 4; 9]%R 3)
  /\ returns_to_caller
       (polyfit 0 (fun _ yvals => yvals) [1; 2; 3]%R [1; 4; 9]%R 2).
Proof.
  split.
  - apply (polyfit_asserts_order 0 (fun _ yvals => yvals)
             [1; 2; 3]%R [1; 4; 9]%R 3); [reflexivity |].
    unfold size. simpl. lia.
  - destruct (polyfit_asserts_order 0 (fun _ yvals => yvals)
                [1; 2; 3]%R [1; 4; 9]%R 2) as [_ Hvalid]; [reflexivity |].
    destruct Hvalid as [A [Hrun _]]; [unfold size; simpl; lia |].
    eexists. exact Hrun.
Defined.

(** ** The property of [transform_map_coord] *)

Lemma map_ext_range (g h : Z -> R) (n : Z) :
  (forall i, 0 <= i < n -> g i = h i) -> map g (range n) = map h (range n).
Proof.
  intros H. apply map_ext_in. intros i Hi. apply H.
  unfold range in Hi. apply in_map_iff in Hi.
  destruct Hi as [k [<- Hk]]. apply in_seq in Hk. lia.
Qed.


(** C9. The coordinate transform, which subtracts the position of the
    vehicle and then applies the rotation written with the cosine and the
    sine of the heading minus a quarter turn, is invertible: for all
    waypoints and every pose of the vehicle, the transposed rotation
    followed by the addition of the position of the vehicle gives back the
    coordinates in the world frame. The reals stand for the doubles here,
    so what comes back is the coordinates themselves. *)
Theorem transform_map_coord_invertible (xvals yvals : vector)
    (vehicle_x vehicle_y vehicle_theta : R) :
  size yvals = size xvals ->
  exists tx ty,
    transform_map_coord xvals yvals vehicle_x vehicle_y vehicle_theta
    = Ok (tx, ty)
    /\ size tx = size xvals /\ size ty = size xvals
    /\ (forall i, 0 <= i < size xvals ->
          at_index tx i
          = (- (at_index xvals i - vehicle_x) * sin (vehicle_theta - M_PI / 2)
             + (at_index yvals i - vehicle_y) * cos (vehicle_theta - M_PI / 2))%R
          /\ at_index ty i
             = (- (at_index xvals i - vehicle_x)
                  * cos (vehicle_theta - M_PI / 2)
                - (at_index yvals i - vehicle_y)
                  * sin (vehicle_theta - M_PI / 2))%R)
    /\ inverse_transform_map_coord tx ty vehicle_x vehicle_y vehicle_theta
       = Ok (xvals, yvals).
Proof.
  intros Hsame.
  rewrite (transform_map_coord_run xvals yvals vehicle_x vehicle_y
             vehicle_theta Hsame).
  set (c := cos (vehicle_theta - M_PI / 2)).
  set (s := sin (vehicle_theta - M_PI / 2)).
  set (fx := fun i => (- (at_index xvals i - vehicle_x) * s
                       + (at_index yvals i - vehicle_y) * c)%R).
  set (fy := fun i => (- (at_index xvals i - vehicle_x) * c
                       - (at_index yvals i - vehicle_y) * s)%R).
  pose proof (size_nonneg xvals) as Hn.
  exists (map fx (range (size xvals))), (map fy (range (size xvals))).
  split; [reflexivity |].
  split; [now apply size_map_range |]. split; [now apply size_map_range |].
  split.
  { intros i Hi. rewrite !at_index_map_range by assumption.
    split; reflexivity. }
  unfold inverse_transform_map_coord.
  rewrite size_map_range by assumption.
  rewrite (collect_loop _
             (fun i => (- fx i * s - fy i * c + vehicle_x)%R)
             (fun i => (fx i * c - fy i * s + vehicle_y)%R)).
  - pose proof (unit_circle vehicle_theta) as Hunit. fold s c in Hunit.
    f_equal. f_equal.
    + transitivity (map (at_index xvals) (range (size xvals)));
        [| apply map_at_index_range].
      apply map_ext_range. intros i Hi. unfold fx, fy.
      replace (- (- (at_index xvals i - vehicle_x) * s
                  + (at_index yvals i - vehicle_y) * c) * s
               - (- (at_index xvals i - vehicle_x) * c
                  - (at_index yvals i - vehicle_y) * s) * c + vehicle_x)%R
        with ((at_index xvals i - vehicle_x) * (s * s + c * c)
              + vehicle_x)%R by ring.
      rewrite Hunit. ring.
    + transitivity (map (at_index yvals) (range (size yvals)));
        [| apply map_at_index_range].
      rewrite Hsame. apply map_ext_range. intros i Hi. unfold fx, fy.
      replace ((- (at_index xvals i - vehicle_x) * s
                + (at_index yvals i - vehicle_y) * c) * c
               - (- (at_index xvals i - vehicle_x) * c
                  - (at_index yvals i - vehicle_y) * s) * s + vehicle_y)%R
        with ((at_index yvals i - vehicle_y) * (s * s + c * c)
              + vehicle_y)%R by ring.
      rewrite Hunit. ring.
  - assumption.
  - intros i [wx wy] Hi. unfold inverse_transform_point. fold s c.
    rewrite !vget_ok by (rewrite size_map_range; lia). cbn [bind fst snd].
    rewrite !at_index_map_range by lia. reflexivity.
Qed.

Lemma transform_map_coord_invertible_witness :
  exists tx ty,
    transform_map_coord [-32.16173; -43.49173]%R [113.361; 105.941]%R
      (-40.62) 108.73 3.733651
    = Ok (tx, ty)
    /\ inverse_transform_map_coord tx ty (-40.62) 108.73 3.733651
       = Ok ([-32.16173; -43.49173]%R, [113.361; 105.941]%R).
Proof.
  destruct (transform_map_coord_invertible
              [-32.16173; -43.49173]%R [113.361; 105.941]%R
              (-40.62) 108.73 3.733651)
    as [tx [ty [Hrun [_ [_ [_ Hback]]]]]].
  - reflexivity.
  - exists tx, ty. split; assumption.
Defined.

(** ** Runs on small inputs *)

(** The layout at the horizon of the source. *)
Example baseline_layout :
  (x_start, y_start Baseline.N, psi_start Baseline.N, v_start Baseline.N,
   cte_start Baseline.N, epsi_start Baseline.N, delta_start Baseline.N,
   a_start Baseline.N, n_vars Baseline.N, n_constraints Baseline.N)
  = (0, 25, 50, 75, 100, 125, 150, 174, 198, 150).
Proof. reflexivity. Qed.

(** The starting point and the bounds for a horizon of two steps: none of
    the entries keeps what the vectors held when they were allocated. *)
Example Solve_setup_two_steps :
  Solve_setup 2 7 [0; 0; 0; 10; 1; 2]%R
  = Ok (problem.make
          [0; 0.0; 0; 0.0; 0; 0.0; 10; 0.0; 1; 0.0; 2; 0.0; 0.0; 0.0]%R
          [-1.0e19; -1.0e19; -1.0e19; -1.0e19; -1.0e19; -1.0e19; -1.0e19;
           -1.0e19; -1.0e19; -1.0e19; -1.0e19; -1.0e19; -0.436332; -1.0]%R
          [1.0e19; 1.0e19; 1.0e19; 1.0e19; 1.0e19; 1.0e19; 1.0e19;
           1.0e19; 1.0e19; 1.0e19; 1.0e19; 1.0e19; 0.436332; 1.0]%R
          [0; 0; 0; 0; 0; 0; 10; 0; 1; 0; 2; 0]%R
          [0; 0; 0; 0; 0; 0; 10; 0; 1; 0; 2; 0]%R).
Proof. reflexivity. Qed.

(** A vehicle that stands still on the reference line at the reference
    speed: the cost is zero, the x residual of the only step is the
    distance not travelled, the initial entry of v is the speed. *)
Example evaluator_on_the_reference :
  exists g,
    FG_eval 2 0.05 0 0 40 [0; 0; 0; 0]%R (repeat 7%R 13)
      [0; 0; 0; 0; 0; 0; 40; 40; 0; 0; 0; 0; 0; 0]%R = Ok g
    /\ at_index g 0 = 0%R
    /\ at_index g 2 = (-2)%R
    /\ at_index g 7 = 40%R
    /\ at_index g 8 = 0%R.
Proof.
  eexists. split; [reflexivity |]. unfold at_index. simpl.
  rewrite cos_0. repeat split; lra.
Qed.

(** A vehicle at the origin that heads along the second axis sees the
    point (1, 2) two units ahead and one unit to its right. *)
Example transform_heading_quarter_turn :
  transform_map_coord [1]%R [2]%R 0 0 (PI / 2) = Ok ([2]%R, [-1]%R).
Proof.
  rewrite transform_map_coord_run by reflexivity.
  unfold size, range, at_index, M_PI. simpl.
  replace (PI / 2 - PI / 2)%R with 0%R by lra.
  rewrite cos_0, sin_0. repeat f_equal; lra.
Qed.

(** The system of a line through two points. *)
Example polyfit_two_points (qr : matrix -> vector -> vector) :
  polyfit 7 qr [2; 3]%R [5; 6]%R 1
  = Ok (qr [[1.0; 1.0 * 2]; [1.0; 1.0 * 3]]%R [5; 6]%R).
Proof. reflexivity. Qed.

(** ** Further facts on loops, sums and vectors *)

(** A loop stops at the first round whose body stops. *)
Lemma for_from_stops {St : Type} (Inv : Z -> St -> Prop)
    (body : Z -> St -> outcome St) (k : Z) (name : string) (ix : Z)
    (fuel : nat) :
  forall (i : Z) (s : St),
    i <= k < i + Z.of_nat fuel ->
    Inv i s ->
    (forall j t, i <= j < k -> Inv j t ->
       exists t', body j t = Ok t' /\ Inv (j + 1) t') ->
    (forall t, Inv k t -> body k t = OutOfRange name ix) ->
    for_from fuel i body s = OutOfRange name ix.
Proof.
  induction fuel as [|fuel IH]; intros i s Hk Hinv Hstep Hstop.
  - lia.
  - simpl. destruct (Z.eq_dec i k) as [-> | Hne].
    + now rewrite Hstop.
    + destruct (Hstep i s) as [t [Hb Ht]]; [lia | assumption |].
      rewrite Hb. cbn [bind]. apply IH; try assumption; [lia |].
      intros j u Hj Hu. apply Hstep; [lia | assumption].
Qed.

Lemma for_loop_stops {St : Type} (Inv : Z -> St -> Prop)
    (lo k hi : Z) (body : Z -> St -> outcome St) (s : St)
    (name : string) (ix : Z) :
  lo <= k < hi ->
  Inv lo s ->
  (forall j t, lo <= j < k -> Inv j t ->
     exists t', body j t = Ok t' /\ Inv (j + 1) t') ->
  (forall t, Inv k t -> body k t = OutOfRange name ix) ->
  for_loop lo hi body s = OutOfRange name ix.
Proof.
  intros Hk Hinv Hstep Hstop. unfold for_loop.
  apply (for_from_stops Inv body k); try assumption. lia.
Qed.

(** In a loop that ran to its end every round ran to its end, on a state
    that has what the body keeps. *)
Lemma for_from_rounds {St : Type} (P : St -> Prop)
    (body : Z -> St -> outcome St) (fuel : nat) :
  (forall i t t', P t -> body i t = Ok t' -> P t') ->
  forall (i : Z) (s s' : St),
    P s -> for_from fuel i body s = Ok s' ->
    P s'
    /\ forall k, i <= k < i + Z.of_nat fuel ->
         exists t t', P t /\ body k t = Ok t'.
Proof.
  intros Hkeep. induction fuel as [|fuel IH]; intros i s s' Hs Hrun.
  - simpl in Hrun. injection Hrun as <-. split; [assumption | lia].
  - simpl in Hrun. destruct (body i s) as [t | | |] eqn:Hb;
      cbn [bind] in Hrun; try discriminate.
    destruct (IH (i + 1) t s' (Hkeep i s t Hs Hb) Hrun) as [Hs' Hall].
    split; [assumption |]. intros k Hk.
    destruct (Z.eq_dec k i) as [-> | Hne].
    + exists s, t. split; assumption.
    + apply Hall. lia.
Qed.

Lemma for_loop_rounds {St : Type} (P : St -> Prop)
    (lo hi : Z) (body : Z -> St -> outcome St) (s s' : St) :
  (forall i t t', P t -> body i t = Ok t' -> P t') ->
  P s -> for_loop lo hi body s = Ok s' ->
  P s' /\ forall k, lo <= k < hi -> exists t t', P t /\ body k t = Ok t'.
Proof.
  intros Hkeep Hs Hrun. unfold for_loop in Hrun.
  destruct (for_from_rounds P body _ Hkeep lo s s' Hs Hrun) as [Hs' Hall].
  split; [assumption |]. intros k Hk. apply Hall. lia.
Qed.

Lemma bind_Ok_inv {A B : Type} (m : outcome A) (k : A -> outcome B) (b : B) :
  bind m k = Ok b -> exists a, m = Ok a /\ k a = Ok b.
Proof.
  destruct m as [a | | |]; cbn [bind]; intros H; try discriminate.
  exists a. split; [reflexivity | assumption].
Qed.

Lemma vget_Ok_inv (name : string) (v : vector) (i : Z) (r : R) :
  vget name v i = Ok r -> 0 <= i < size v.
Proof.
  unfold vget, in_range. intros H.
  destruct (Z.leb_spec 0 i); destruct (Z.ltb_spec i (size v));
    cbn [andb] in H; try discriminate. lia.
Qed.

Lemma vset_Ok_inv (name : string) (v w : vector) (i : Z) (x : R) :
  vset name v i x = Ok w -> 0 <= i < size v /\ size w = size v.
Proof.
  unfold vset, in_range. intros H.
  destruct (Z.leb_spec 0 i); destruct (Z.ltb_spec i (size v));
    cbn [andb] in H; try discriminate.
  injection H as <-. split; [lia | apply size_list_update].
Qed.

Lemma vadd_Ok_inv (name : string) (v w : vector) (i : Z) (x : R) :
  vadd name v i x = Ok w -> 0 <= i < size v /\ size w = size v.
Proof.
  unfold vadd. intros H. apply bind_Ok_inv in H. destruct H as [a [_ H]].
  now apply vset_Ok_inv in H.
Qed.

(** Two vectors of one size with the same entries are the same. *)
Lemma vector_ext (a b : vector) :
  size a = size b ->
  (forall j, 0 <= j < size a -> at_index a j = at_index b j) ->
  a = b.
Proof.
  intros Hsize Hentries. apply (nth_ext _ _ 0%R 0%R).
  - unfold size in Hsize. lia.
  - intros n Hn. pose proof (Hentries (Z.of_nat n)) as H.
    unfold at_index in H. rewrite Nat2Z.id in H. apply H.
    unfold size. lia.
Qed.

Lemma sum_upto_ext (n : nat) (f g : Z -> R) :
  (forall i, 0 <= i < Z.of_nat n -> f i = g i) ->
  sum_upto n f = sum_upto n g.
Proof.
  induction n as [|n IH]; intros H; simpl; [reflexivity |].
  rewrite IH by (intros i Hi; apply H; lia).
  rewrite (H (Z.of_nat n)) by lia. reflexivity.
Qed.

Lemma sum_upto_shift (n : nat) (f : Z -> R) :
  sum_upto (S n) f = (f 0%Z + sum_upto n (fun i => f (i + 1)%Z))%R.
Proof.
  induction n as [|n IH].
  - simpl. ring.
  - change (sum_upto (S (S n)) f)
      with (sum_upto (S n) f + f (Z.of_nat (S n)))%R.
    rewrite IH. simpl sum_upto.
    replace (Z.of_nat (S n)) with (Z.of_nat n + 1) by lia. ring.
Qed.

Lemma sum_upto_scale (n : nat) (x : R) (f : Z -> R) :
  sum_upto n (fun i => x * f i)%R = (x * sum_upto n f)%R.
Proof.
  induction n as [|n IH]; simpl; [ring | rewrite IH; ring].
Qed.

Lemma sum_upto_nonneg (n : nat) (f : Z -> R) :
  (forall i, 0 <= i < Z.of_nat n -> (0 <= f i)%R) ->
  (0 <= sum_upto n f)%R.
Proof.
  induction n as [|n IH]; intros H; simpl; [lra |].
  pose proof (IH ltac:(intros i Hi; apply H; lia)).
  pose proof (H (Z.of_nat n) ltac:(lia)). lra.
Qed.

Lemma sum_upto_zero (n : nat) (f : Z -> R) :
  (forall i, 0 <= i < Z.of_nat n -> (0 <= f i)%R) ->
  (sum_upto n f = 0%R <-> forall i, 0 <= i < Z.of_nat n -> f i = 0%R).
Proof.
  induction n as [|n IH]; intros Hpos; simpl.
  - split; [intros _ i Hi; lia | reflexivity].
  - assert (Hpos' : forall i, 0 <= i < Z.of_nat n -> (0 <= f i)%R)
      by (intros i Hi; apply Hpos; lia).
    pose proof (sum_upto_nonneg n f Hpos') as Hsum.
    pose proof (Hpos (Z.of_nat n) ltac:(lia)) as Hlast.
    split.
    + intros H i Hi. destruct (Z.eq_dec i (Z.of_nat n)) as [-> | Hne].
      * lra.
      * apply (proj1 (IH Hpos')); [lra | lia].
    + intros H. rewrite (proj2 (IH Hpos')) by (intros i Hi; apply H; lia).
      rewrite (H (Z.of_nat n)) by lia. ring.
Qed.

(** ** Further properties of [polyeval] *)

Lemma polyeval_run (coeffs : vector) (x : R) :
  exists y, polyeval coeffs x = Ok y
    /\ y = sum_upto (Z.to_nat (size coeffs))
             (fun i => at_index coeffs i * x ^ Z.to_nat i)%R.
Proof.
  unfold polyeval.
  destruct (for_loop_invariant
              (fun i r =>
                 r = sum_upto (Z.to_nat i)
                       (fun i => at_index coeffs i * x ^ Z.to_nat i)%R)
              0 (size coeffs)
              (fun i result =>
                 c <- vget "coeffs" coeffs i ;;
                 Ok (result + c * x ^ Z.to_nat i)%R)
              0.0%R) as [y [Hrun Hy]].
  - apply size_nonneg.
  - simpl. lra.
  - intros i r Hi ->. rewrite vget_ok by lia. cbn [bind].
    eexists. split; [reflexivity |]. now rewrite sum_upto_succ by lia.
  - exists y. split; assumption.
Qed.

Lemma sum_of_terms_horner (coeffs : vector) (x : R) :
  sum_upto (List.length coeffs)
    (fun i => at_index coeffs i * x ^ Z.to_nat i)%R
  = horner coeffs x.
Proof.
  induction coeffs as [|c t IH]; [reflexivity |].
  cbn [List.length horner]. rewrite sum_upto_shift, <- IH.
  rewrite <- sum_upto_scale. unfold at_index at 1. simpl nth. simpl pow.
  f_equal; [ring |]. apply sum_upto_ext. intros i Hi.
  unfold at_index.
  replace (Z.to_nat (i + 1)) with (S (Z.to_nat i)) by lia.
  simpl. ring.
Qed.

Lemma polyeval_at_zero_run (coeffs : vector) :
  exists y, polyeval coeffs 0 = Ok y /\ y = at_index coeffs 0.
Proof.
  destruct (polyeval_run coeffs 0) as [y [Hrun Hy]].
  exists y. split; [assumption |].
  rewrite Hy. unfold size. rewrite Nat2Z.id, sum_of_terms_horner.
  destruct coeffs as [|c t]; unfold at_index; simpl; ring.
Qed.

(** X1. [polyeval] never reads outside [coeffs], whatever its length, and
    its value is the one of Horner's rule with the coefficient of lowest
    degree first. *)
Theorem polyeval_is_horner (coeffs : vector) (x : R) :
  exists y, polyeval coeffs x = Ok y /\ y = horner coeffs x.
Proof.
  destruct (polyeval_run coeffs x) as [y [Hrun Hy]].
  exists y. split; [assumption |].
  rewrite Hy. unfold size. rewrite Nat2Z.id. apply sum_of_terms_horner.
Qed.

(** X2. At zero [polyeval] gives the first coefficient, and zero when
    there is no coefficient: the cross track error of [main] is the
    constant of the fit. *)
Theorem polyeval_at_zero (coeffs : vector) :
  exists y, polyeval coeffs 0 = Ok y /\ y = at_index coeffs 0.
Proof. exact (polyeval_at_zero_run coeffs). Qed.

(** ** Further properties of the trajectory evaluator *)

Lemma square_zero (r : R) : (r ^ 2 = 0 -> r = 0)%R.
Proof. intros H. nra. Qed.

Lemma square_nonneg (r : R) : (0 <= r ^ 2)%R.
Proof. nra. Qed.

Section Cost_facts.

Variable N : Z.
Variables ref_cte ref_epsi ref_v : R.
Variable vars : vector.

Hypothesis N_ge : 2 <= N.

Lemma tracking_cost_nonneg :
  (0 <= tracking_cost N ref_cte ref_epsi ref_v vars)%R.
Proof.
  unfold tracking_cost. apply sum_upto_nonneg. intros i _.
  pose proof (square_nonneg (cte_ N vars i - ref_cte)).
  pose proof (square_nonneg (epsi_ N vars i - ref_epsi)).
  pose proof (square_nonneg (v_ N vars i - ref_v)). lra.
Qed.

Lemma actuation_cost_nonneg : (0 <= actuation_cost N vars)%R.
Proof.
  unfold actuation_cost. apply sum_upto_nonneg. intros i _.
  pose proof (square_nonneg (delta_ N vars i)).
  pose proof (square_nonneg (a_ N vars i)). lra.
Qed.

Lemma smoothness_cost_nonneg : (0 <= smoothness_cost N vars)%R.
Proof.
  unfold smoothness_cost. apply sum_upto_nonneg. intros i _.
  pose proof (square_nonneg (delta_ N vars (i + 1) - delta_ N vars i)).
  pose proof (square_nonneg (a_ N vars (i + 1) - a_ N vars i)). lra.
Qed.

Lemma cost_formula_nonneg :
  (0 <= cost_formula N ref_cte ref_epsi ref_v vars)%R.
Proof.
  unfold cost_formula.
  pose proof tracking_cost_nonneg. pose proof actuation_cost_nonneg.
  pose proof smoothness_cost_nonneg. lra.
Qed.

Lemma cost_formula_zero :
  cost_formula N ref_cte ref_epsi ref_v vars = 0%R
  <-> (forall i, 0 <= i < N ->
         cte_ N vars i = ref_cte /\ epsi_ N vars i = ref_epsi
         /\ v_ N vars i = ref_v)
      /\ (forall i, 0 <= i < N - 1 ->
            delta_ N vars i = 0%R /\ a_ N vars i = 0%R).
Proof.
  pose proof tracking_cost_nonneg as Ht.
  pose proof actuation_cost_nonneg as Ha.
  pose proof smoothness_cost_nonneg as Hs.
  unfold cost_formula. split.
  - intros H.
    assert (Ht0 : tracking_cost N ref_cte ref_epsi ref_v vars = 0%R) by lra.
    assert (Ha0 : actuation_cost N vars = 0%R) by lra.
    unfold tracking_cost in Ht0. unfold actuation_cost in Ha0.
    rewrite sum_upto_zero in Ht0.
    2:{ intros i _.
        pose proof (square_nonneg (cte_ N vars i - ref_cte)).
        pose proof (square_nonneg (epsi_ N vars i - ref_epsi)).
        pose proof (square_nonneg (v_ N vars i - ref_v)). lra. }
    rewrite sum_upto_zero in Ha0.
    2:{ intros i _.
        pose proof (square_nonneg (delta_ N vars i)).
        pose proof (square_nonneg (a_ N vars i)). lra. }
    split.
    + intros i Hi. specialize (Ht0 i ltac:(lia)).
      pose proof (square_nonneg (cte_ N vars i - ref_cte)) as H1.
      pose proof (square_nonneg (epsi_ N vars i - ref_epsi)) as H2.
      pose proof (square_nonneg (v_ N vars i - ref_v)) as H3.
      pose proof (square_zero (cte_ N vars i - ref_cte)).
      pose proof (square_zero (epsi_ N vars i - ref_epsi)).
      pose proof (square_zero (v_ N vars i - ref_v)).
      repeat split; lra.
    + intros i Hi. specialize (Ha0 i ltac:(lia)).
      pose proof (square_nonneg (delta_ N vars i)) as H1.
      pose proof (square_nonneg (a_ N vars i)) as H2.
      pose proof (square_zero (delta_ N vars i)).
      pose proof (square_zero (a_ N vars i)).
      split; lra.
  - intros [Htrack Hact].
    assert (Ht0 : tracking_cost N ref_cte ref_epsi ref_v vars = 0%R).
    { unfold tracking_cost.
      rewrite (sum_upto_ext _ _ (fun _ => 0%R)).
      - clear. induction (Z.to_nat N); simpl; lra.
      - intros i Hi. destruct (Htrack i) as [-> [-> ->]]; [lia |]. ring. }
    assert (Ha0 : actuation_cost N vars = 0%R).
    { unfold actuation_cost.
      rewrite (sum_upto_ext _ _ (fun _ => 0%R)).
      - clear. induction (Z.to_nat (N - 1)); simpl; lra.
      - intros i Hi. destruct (Hact i) as [-> ->]; [lia |]. ring. }
    assert (Hs0 : smoothness_cost N vars = 0%R).
    { unfold smoothness_cost.
      rewrite (sum_upto_ext _ _ (fun _ => 0%R)).
      - clear. induction (Z.to_nat (N - 2)); simpl; lra.
      - intros i Hi.
        destruct (Hact i) as [-> ->]; [lia |].
        destruct (Hact (i + 1)) as [-> ->]; [lia |]. ring. }
    lra.
Qed.

End Cost_facts.

(** X3. The cost that the evaluator leaves in [fg[0]] is never negative. *)
Theorem FG_eval_cost_nonneg (N : Z) (dt ref_cte ref_epsi ref_v : R)
    (coeffs fg vars : vector) :
  2 <= N -> horizon_fits N ->
  size vars = n_vars N -> size fg = 1 + n_constraints N ->
  4 <= size coeffs ->
  exists g, FG_eval N dt ref_cte ref_epsi ref_v coeffs fg vars = Ok g
    /\ (0 <= at_index g 0)%R.
Proof.
  intros HN Hfits Hvars Hfg Hc.
  destruct (FG_eval_run N dt ref_cte ref_epsi ref_v coeffs vars HN Hfits
              Hvars fg Hc Hfg) as [g [Hrun [_ [Hcost _]]]].
  exists g. split; [assumption |]. rewrite Hcost.
  apply cost_formula_nonneg.
Qed.

Lemma FG_eval_cost_nonneg_witness :
  exists g,
    FG_eval 2 0.05 0 0 40 [1; 2; 3; 4]%R (repeat 0%R 13) (repeat 1%R 14) = Ok g
    /\ (0 <= at_index g 0)%R.
Proof.
  apply (FG_eval_cost_nonneg 2 0.05 0 0 40 [1; 2; 3; 4]%R
           (repeat 0%R 13) (repeat 1%R 14)).
  - lia.
  - exact horizon_fits_2.
  - reflexivity.
  - reflexivity.
  - unfold size. simpl. lia.
Defined.

(** X4. The cost is zero exactly when at every step of the horizon cte,
    epsi and v are at their references and every steering and every
    acceleration is zero. *)
Theorem FG_eval_cost_zero (N : Z) (dt ref_cte ref_epsi ref_v : R)
    (coeffs fg vars : vector) :
  2 <= N -> horizon_fits N ->
  size vars = n_vars N -> size fg = 1 + n_constraints N ->
  4 <= size coeffs ->
  exists g, FG_eval N dt ref_cte ref_epsi ref_v coeffs fg vars = Ok g
    /\ (at_index g 0 = 0%R
        <-> (forall i, 0 <= i < N ->
               cte_ N vars i = ref_cte /\ epsi_ N vars i = ref_epsi
               /\ v_ N vars i = ref_v)
            /\ (forall i, 0 <= i < N - 1 ->
                  delta_ N vars i = 0%R /\ a_ N vars i = 0%R)).
Proof.
  intros HN Hfits Hvars Hfg Hc.
  destruct (FG_eval_run N dt ref_cte ref_epsi ref_v coeffs vars HN Hfits
              Hvars fg Hc Hfg) as [g [Hrun [_ [Hcost _]]]].
  exists g. split; [assumption |]. rewrite Hcost.
  now apply cost_formula_zero.
Qed.

Lemma FG_eval_cost_zero_witness :
  exists g,
    FG_eval 2 0.05 0 0 40 [0; 0; 0; 0]%R (repeat 7%R 13)
      [0; 0; 0; 0; 0; 0; 40; 40; 0; 0; 0; 0; 0; 0]%R = Ok g
    /\ at_index g 0 = 0%R.
Proof.
  destruct (FG_eval_cost_zero 2 0.05 0 0 40 [0; 0; 0; 0]%R (repeat 7%R 13)
              [0; 0; 0; 0; 0; 0; 40; 40; 0; 0; 0; 0; 0; 0]%R)
    as [g [Hrun Hzero]].
  - lia.
  - exact horizon_fits_2.
  - reflexivity.
  - reflexivity.
  - unfold size. simpl. lia.
  - exists g. split; [assumption |]. apply Hzero. split.
    + intros i Hi. assert (Hcases : i = 0 \/ i = 1) by lia.
      destruct Hcases as [-> | ->];
        unfold cte_, epsi_, v_, at_index; simpl; repeat split; lra.
    + intros i Hi. assert (i = 0) as -> by lia.
      unfold delta_, a_, at_index; simpl; split; lra.
Defined.

(** X5. The evaluator writes every entry of [fg]: what it leaves does not
    depend on what [fg] held before. *)
Theorem FG_eval_overwrites_fg (N : Z) (dt ref_cte ref_epsi ref_v : R)
    (coeffs fg fg' vars : vector) :
  2 <= N -> horizon_fits N ->
  size vars = n_vars N ->
  size fg = 1 + n_constraints N -> size fg' = 1 + n_constraints N ->
  4 <= size coeffs ->
  returns_to_caller (FG_eval N dt ref_cte ref_epsi ref_v coeffs fg vars)
  /\ FG_eval N dt ref_cte ref_epsi ref_v coeffs fg vars
     = FG_eval N dt ref_cte ref_epsi ref_v coeffs fg' vars.
Proof.
  intros HN Hfits Hvars Hfg Hfg' Hc.
  destruct (FG_eval_run N dt ref_cte ref_epsi ref_v coeffs vars HN Hfits
              Hvars fg Hc Hfg) as [g [Hrun [Hsize [Hcost [Hinit Hres]]]]].
  destruct (FG_eval_run N dt ref_cte ref_epsi ref_v coeffs vars HN Hfits
              Hvars fg' Hc Hfg')
    as [g' [Hrun' [Hsize' [Hcost' [Hinit' Hres']]]]].
  split; [exists g; assumption |].
  rewrite Hrun, Hrun'. f_equal.
  pose proof (n_constraints_eq N HN Hfits) as Hn.
  apply vector_ext; [lia |].
  intros j Hj. destruct (Z.eq_dec j 0) as [-> | Hne]; [congruence |].
  destruct (steps_cover_all N HN (j - 1)) as [[b [Hb E]] | [b [i [Hb [Hi E]]]]];
    [lia | |].
  - replace j with (1 + constraint_entry N b 0) by lia.
    now rewrite Hinit, Hinit'.
  - replace j with (1 + constraint_entry N b (i + 1)) by lia.
    now rewrite Hres, Hres'.
Qed.

Lemma FG_eval_overwrites_fg_witness :
  FG_eval 2 0.05 0 0 40 [1; 2; 3; 4]%R (repeat 0%R 13) (repeat 1%R 14)
  = FG_eval 2 0.05 0 0 40 [1; 2; 3; 4]%R (repeat 7%R 13) (repeat 1%R 14).
Proof.
  apply (FG_eval_overwrites_fg 2 0.05 0 0 40 [1; 2; 3; 4]%R
           (repeat 0%R 13) (repeat 7%R 13) (repeat 1%R 14)).
  - lia.
  - exact horizon_fits_2.
  - reflexivity.
  - reflexivity.
  - reflexivity.
  - unfold size. simpl. lia.
Defined.

(** Every bind of a run that ended well ended well. *)
Ltac unbind H :=
  repeat (cbv zeta in H; apply bind_Ok_inv in H;
          let a := fresh "a" in
          let E := fresh "E" in
          destruct H as [a [E H]]);
  repeat match goal with
    | E : bind _ _ = Ok _ |- _ =>
        apply bind_Ok_inv in E;
        let a := fresh "a" in
        let E' := fresh "E" in
        destruct E as [a [E' E]]
    end.

(** What the accesses of a run that ended well say on the sizes. *)
Ltac sizes :=
  repeat match goal with
    | E : vset _ _ _ _ = Ok _ |- _ => apply vset_Ok_inv in E
    | E : vadd _ _ _ _ = Ok _ |- _ => apply vadd_Ok_inv in E
    | E : vget _ _ _ = Ok _ |- _ => apply vget_Ok_inv in E
    end.

Section Evaluator_sizes.

Variable N : Z.
Variable dt : R.
Variables ref_cte ref_epsi ref_v : R.
Variables coeffs vars : vector.

Lemma cost_reference_size (i : Z) (t t' : vector) :
  cost_reference N ref_cte ref_epsi ref_v vars i t = Ok t' -> size t' = size t.
Proof. unfold cost_reference. intros H. unbind H. sizes. lia. Qed.

Lemma cost_actuators_size (i : Z) (t t' : vector) :
  cost_actuators N vars i t = Ok t' -> size t' = size t.
Proof. unfold cost_actuators. intros H. unbind H. sizes. lia. Qed.

Lemma cost_gaps_size (i : Z) (t t' : vector) :
  cost_gaps N vars i t = Ok t' -> size t' = size t.
Proof. unfold cost_gaps. intros H. unbind H. sizes. lia. Qed.

Lemma initial_constraints_size (t t' : vector) :
  initial_constraints N vars t = Ok t' -> size t' = size t.
Proof.
  unfold initial_constraints, initial_constraint. intros H.
  unbind H. sizes. lia.
Qed.

Lemma model_constraints_size (i : Z) (t t' : vector) :
  model_constraints N dt coeffs vars i t = Ok t' -> size t' = size t.
Proof. unfold model_constraints. intros H. unbind H. sizes. lia. Qed.

Lemma cost_actuators_reads (i : Z) (t t' : vector) :
  cost_actuators N vars i t = Ok t' -> 0 <= sz (a_start N + i) < size vars.
Proof. unfold cost_actuators. intros H. unbind H. sizes. assumption. Qed.

Lemma model_constraints_accesses (i : Z) (t t' : vector) :
  model_constraints N dt coeffs vars i t = Ok t' ->
  3 < size coeffs /\ 0 <= sz (2 + epsi_start N + i) < size t.
Proof.
  unfold model_constraints. intros H. unbind H.
  apply vset_Ok_inv in H. sizes. split; lia.
Qed.

Lemma FG_eval_cost_size (fg g : vector) :
  FG_eval_cost N ref_cte ref_epsi ref_v vars fg = Ok g -> size g = size fg.
Proof.
  unfold FG_eval_cost. intros H.
  apply bind_Ok_inv in H. destruct H as [f0 [Hzero H]].
  apply bind_Ok_inv in H. destruct H as [f1 [Href H]].
  apply bind_Ok_inv in H. destruct H as [f2 [Hact Hgaps]].
  apply vset_Ok_inv in Hzero.
  assert (H1 : size f1 = size f0).
  { refine (proj1 (for_loop_rounds (fun t => size t = size f0)
                     _ _ _ _ _ _ eq_refl Href)).
    intros i t t' Ht Hb. apply cost_reference_size in Hb. lia. }
  assert (H2 : size f2 = size f0).
  { refine (proj1 (for_loop_rounds (fun t => size t = size f0)
                     _ _ _ _ _ _ H1 Hact)).
    intros i t t' Ht Hb. apply cost_actuators_size in Hb. lia. }
  assert (H3 : size g = size f0).
  { refine (proj1 (for_loop_rounds (fun t => size t = size f0)
                     _ _ _ _ _ _ H2 Hgaps)).
    intros i t t' Ht Hb. apply cost_gaps_size in Hb. lia. }
  lia.
Qed.

Hypothesis N_ge : 2 <= N.
Hypothesis N_fits : horizon_fits N.

Lemma FG_eval_cost_Ok_vars (fg g : vector) :
  FG_eval_cost N ref_cte ref_epsi ref_v vars fg = Ok g ->
  n_vars N <= size vars.
Proof.
  unfold FG_eval_cost. intros H.
  pose proof (horizon_small N N_fits) as Hsmall.
  apply bind_Ok_inv in H. destruct H as [f0 [_ H]].
  apply bind_Ok_inv in H. destruct H as [f1 [_ H]].
  apply bind_Ok_inv in H. destruct H as [f2 [Hact _]].
  rewrite (sz_small (N - 1)) in Hact by lia.
  assert (Hround : forall k, 0 <= k < N - 1 ->
            exists t t', True /\ cost_actuators N vars k t = Ok t').
  { refine (proj2 (for_loop_rounds (fun _ => True) _ _ _ _ _ _ I Hact)).
    intros; exact I. }
  destruct (Hround (N - 2)) as [t [t' [_ Hb]]]; [lia |].
  apply cost_actuators_reads in Hb.
  rewrite (a_start_eq N N_ge N_fits) in Hb.
  rewrite (sz_small (7 * N - 1 + (N - 2))) in Hb by lia.
  rewrite (n_vars_eq N N_ge N_fits). lia.
Qed.

(** A run of the evaluator that ends well had vectors long enough. *)
Lemma FG_eval_Ok_sizes (fg g : vector) :
  FG_eval N dt ref_cte ref_epsi ref_v coeffs fg vars = Ok g ->
  n_vars N <= size vars /\ 1 + n_constraints N <= size fg
  /\ 4 <= size coeffs.
Proof.
  unfold FG_eval. intros H.
  pose proof (horizon_small N N_fits) as Hsmall.
  apply bind_Ok_inv in H. destruct H as [g1 [Hcost H]].
  apply bind_Ok_inv in H. destruct H as [g2 [Hinit Hmodel]].
  rewrite (sz_small (N - 1)) in Hmodel by lia.
  pose proof (FG_eval_cost_size fg g1 Hcost) as Hg1.
  pose proof (initial_constraints_size g1 g2 Hinit) as Hg2.
  assert (Hround : forall k, 0 <= k < N - 1 ->
            exists t t', size t = size fg
              /\ model_constraints N dt coeffs vars k t = Ok t').
  { refine (proj2 (for_loop_rounds (fun t => size t = size fg)
                     _ _ _ _ _ _ _ Hmodel)); [| lia].
    intros i t t' Ht Hb. apply model_constraints_size in Hb. lia. }
  destruct (Hround (N - 2)) as [t [t' [Ht Hb]]]; [lia |].
  apply model_constraints_accesses in Hb. destruct Hb as [Hc Hfg].
  rewrite (epsi_start_eq N N_ge N_fits) in Hfg.
  rewrite (sz_small (2 + 5 * N + (N - 2))) in Hfg by lia.
  rewrite (n_constraints_eq N N_ge N_fits).
  split; [exact (FG_eval_cost_Ok_vars fg g1 Hcost) |].
  split; lia.
Qed.

End Evaluator_sizes.

(** X6. The evaluator returns only when [vars] has the [n_vars] entries
    of the layout, [fg] has room for the cost and the [n_constraints]
    constraints, and there are four coefficients: with less, some access
    is outside its vector. *)
Theorem FG_eval_returns_only_with_room (N : Z) (dt ref_cte ref_epsi ref_v : R)
    (coeffs fg vars : vector) :
  2 <= N -> horizon_fits N ->
  returns_to_caller (FG_eval N dt ref_cte ref_epsi ref_v coeffs fg vars) ->
  n_vars N <= size vars /\ 1 + n_constraints N <= size fg
  /\ 4 <= size coeffs.
Proof.
  intros HN Hfits [g Hrun].
  exact (FG_eval_Ok_sizes N dt ref_cte ref_epsi ref_v coeffs vars HN Hfits
           fg g Hrun).
Qed.

Lemma FG_eval_returns_only_with_room_witness :
  n_vars 2 <= size (repeat 1%R 14) /\ 1 + n_constraints 2 <= size (repeat 0%R 13)
  /\ 4 <= size [1; 2; 3; 4]%R.
Proof.
  apply (FG_eval_returns_only_with_room 2 0.05 0 0 40 [1; 2; 3; 4]%R
           (repeat 0%R 13) (repeat 1%R 14)).
  - lia.
  - exact horizon_fits_2.
  - eexists. reflexivity.
Defined.

(** X7. What the constraints mean. With the bounds that [MPC::Solve]
    builds for the state [x0], the constraints that the evaluator computes
    for a decision vector lie within their bounds exactly when the
    decision vector starts at [x0] and follows the kinematic model from
    every step to the next. *)
Theorem feasible_is_model_trajectory (N : Z) (dt ref_cte ref_epsi ref_v : R)
    (indeterminate : R) (x0 coeffs fg vars : vector) :
  2 <= N -> horizon_fits N -> 6 <= size x0 ->
  size vars = n_vars N -> size fg = 1 + n_constraints N ->
  4 <= size coeffs ->
  exists p g,
    Solve_setup N indeterminate x0 = Ok p
    /\ FG_eval N dt ref_cte ref_epsi ref_v coeffs fg vars = Ok g
    /\ (within_bounds (problem.constraints_lowerbound p)
          (problem.constraints_upperbound p) g
        <-> starts_at N x0 vars /\ follows_model N dt coeffs vars).
Proof.
  intros HN Hfits Hx0 Hvars Hfg Hc.
  destruct (Solve_setup_run N indeterminate x0 HN Hfits Hx0)
    as [p [Hsetup [_ [_ [Hcl [Hcu [[Hlb Hlz] [Hub Huz]]]]]]]].
  destruct (FG_eval_run N dt ref_cte ref_epsi ref_v coeffs vars HN Hfits
              Hvars fg Hc Hfg) as [g [Hrun [_ [_ [Hinit Hres]]]]].
  exists p, g. split; [assumption |]. split; [assumption |].
  assert (Hstart : forall b, 0 <= b < 6 ->
            at_index g (1 + b * N) = at_index vars (b * N)).
  { intros b Hb. rewrite <- (Hinit b Hb). unfold constraint_entry.
    f_equal. lia. }
  assert (Hdefect : forall b i, 0 <= b < 6 -> 0 <= i < N - 1 ->
            at_index (problem.constraints_lowerbound p) (b * N + (i + 1)) = 0%R
            /\ at_index (problem.constraints_upperbound p) (b * N + (i + 1))
               = 0%R
            /\ at_index g (1 + (b * N + (i + 1)))
               = residual N dt coeffs vars b i).
  { intros b i Hb Hi. split; [| split].
    - apply Hlz; [block b; lia |]. intros b' Hb'. block b; block b'; lia.
    - apply Huz; [block b; lia |]. intros b' Hb'. block b; block b'; lia.
    - now apply Hres. }
  unfold within_bounds. rewrite Hcl. split.
  - intros Hwithin. split.
    + intros b Hb.
      pose proof (Hwithin (b * N) ltac:(block b; lia)) as H.
      rewrite (Hlb b Hb), (Hub b Hb), (Hstart b Hb) in H. lra.
    + intros i Hi.
      pose proof (Hwithin (0 * N + (i + 1)) ltac:(lia)) as H0.
      pose proof (Hwithin (1 * N + (i + 1)) ltac:(lia)) as H1.
      pose proof (Hwithin (2 * N + (i + 1)) ltac:(lia)) as H2.
      pose proof (Hwithin (3 * N + (i + 1)) ltac:(lia)) as H3.
      pose proof (Hwithin (4 * N + (i + 1)) ltac:(lia)) as H4.
      pose proof (Hwithin (5 * N + (i + 1)) ltac:(lia)) as H5.
      destruct (Hdefect 0 i ltac:(lia) Hi) as [L0 [U0 G0]].
      destruct (Hdefect 1 i ltac:(lia) Hi) as [L1 [U1 G1]].
      destruct (Hdefect 2 i ltac:(lia) Hi) as [L2 [U2 G2]].
      destruct (Hdefect 3 i ltac:(lia) Hi) as [L3 [U3 G3]].
      destruct (Hdefect 4 i ltac:(lia) Hi) as [L4 [U4 G4]].
      destruct (Hdefect 5 i ltac:(lia) Hi) as [L5 [U5 G5]].
      rewrite L0, U0, G0 in H0. rewrite L1, U1, G1 in H1.
      rewrite L2, U2, G2 in H2. rewrite L3, U3, G3 in H3.
      rewrite L4, U4, G4 in H4. rewrite L5, U5, G5 in H5.
      cbn [residual] in *.
      unfold residual_x, residual_y, residual_psi, residual_v, residual_cte,
        residual_epsi in *.
      repeat split; lra.
  - intros [Hstarts Hmodel] j Hj.
    destruct (steps_cover_all N HN j Hj)
      as [[b [Hb ->]] | [b [i [Hb [Hi ->]]]]]; unfold constraint_entry.
    + replace (b * N + 0) with (b * N) by lia.
      rewrite (Hlb b Hb), (Hub b Hb), (Hstart b Hb), (Hstarts b Hb). lra.
    + destruct (Hdefect b i Hb Hi) as [-> [-> ->]].
      destruct (Hmodel i Hi) as [E0 [E1 [E2 [E3 [E4 E5]]]]].
      block b; cbn [residual];
        unfold residual_x, residual_y, residual_psi, residual_v,
          residual_cte, residual_epsi; lra.
Qed.

Lemma feasible_is_model_trajectory_witness :
  exists p g,
    Solve_setup 2 0 [0; 0; 0; 10; 1; 2]%R = Ok p
    /\ FG_eval 2 0.05 0 0 40 [1; 2; 3; 4]%R (repeat 0%R 13) (repeat 1%R 14)
       = Ok g.
Proof.
  destruct (feasible_is_model_trajectory 2 0.05 0 0 40 0
              [0; 0; 0; 10; 1; 2]%R [1; 2; 3; 4]%R
              (repeat 0%R 13) (repeat 1%R 14))
    as [p [g [Hsetup [Hrun _]]]].
  - lia.
  - exact horizon_fits_2.
  - unfold size. simpl. lia.
  - reflexivity.
  - reflexivity.
  - unfold size. simpl. lia.
  - exists p, g. split; assumption.
Defined.

(** ** Further properties of [MPC::Solve] *)

Lemma block_start_dec (N j : Z) :
  (exists b, 0 <= b < 6 /\ j = b * N)
  \/ (forall b, 0 <= b < 6 -> j <> b * N).
Proof.
  destruct (Z.eq_dec j (0 * N)); [left; exists 0; lia |].
  destruct (Z.eq_dec j (1 * N)); [left; exists 1; lia |].
  destruct (Z.eq_dec j (2 * N)); [left; exists 2; lia |].
  destruct (Z.eq_dec j (3 * N)); [left; exists 3; lia |].
  destruct (Z.eq_dec j (4 * N)); [left; exists 4; lia |].
  destruct (Z.eq_dec j (5 * N)); [left; exists 5; lia |].
  right. intros b Hb. block b; assumption.
Qed.

Lemma seeded_ext (N : Z) (x0 v w : vector) :
  size v = size w -> seeded N x0 v -> seeded N x0 w -> v = w.
Proof.
  intros Hsize [Hvb Hvz] [Hwb Hwz]. apply vector_ext; [assumption |].
  intros j Hj. destruct (block_start_dec N j) as [[b [Hb ->]] | Hother].
  - now rewrite Hvb, Hwb.
  - rewrite Hvz, Hwz by (lia || assumption). reflexivity.
Qed.

(** X8. Cold start. The starting point that [MPC::Solve] hands to the
    solver holds the six components of the state at the starts of the
    six state blocks and zero everywhere else, the actuations included. *)
Theorem Solve_starts_cold (N : Z) (indeterminate : R) (x0 : vector) :
  2 <= N -> horizon_fits N -> 6 <= size x0 ->
  exists p, Solve_setup N indeterminate x0 = Ok p
    /\ size (problem.vars p) = n_vars N
    /\ (forall b, 0 <= b < 6 ->
          at_index (problem.vars p) (b * N) = at_index x0 b)
    /\ (forall j, 0 <= j < n_vars N ->
          (forall b, 0 <= b < 6 -> j <> b * N) ->
          at_index (problem.vars p) j = 0%R).
Proof.
  intros HN Hfits Hx0.
  destruct (Solve_setup_run N indeterminate x0 HN Hfits Hx0)
    as [p [Hrun [[Hv [Hb Hz]] _]]].
  exists p. rewrite (n_vars_eq N HN Hfits).
  split; [assumption |]. split; [assumption |]. split; [assumption |].
  intros j Hj Hother. apply Hz; [lia | assumption].
Qed.

Lemma Solve_starts_cold_witness :
  exists p, Solve_setup Baseline.N 0 [0; 0; 0; 10; 1; 2]%R = Ok p
    /\ at_index (problem.vars p) 150 = 0%R.
Proof.
  destruct (Solve_starts_cold Baseline.N 0 [0; 0; 0; 10; 1; 2]%R)
    as [p [Hrun [_ [_ Hzero]]]].
  - unfold Baseline.N. lia.
  - exact horizon_fits_baseline.
  - unfold size. simpl. lia.
  - exists p. split; [assumption |]. apply (Hzero 150).
    + split; [apply Z.leb_le | apply Z.ltb_lt]; reflexivity.
    + intros b Hb. unfold Baseline.N. lia.
Defined.

(** X9. Every variable has a lower bound below its upper bound, and the
    starting point lies within the bounds as soon as the six components
    of the state do not reach [1.0e19] in absolute value. *)
Theorem Solve_start_within_bounds (N : Z) (indeterminate : R) (x0 : vector) :
  2 <= N -> horizon_fits N -> 6 <= size x0 ->
  exists p, Solve_setup N indeterminate x0 = Ok p
    /\ (forall j, 0 <= j < n_vars N ->
          (at_index (problem.vars_lowerbound p) j
           < at_index (problem.vars_upperbound p) j)%R)
    /\ ((forall b, 0 <= b < 6 -> (-1.0e19 <= at_index x0 b <= 1.0e19)%R) ->
        forall j, 0 <= j < n_vars N ->
          (at_index (problem.vars_lowerbound p) j
           <= at_index (problem.vars p) j
           <= at_index (problem.vars_upperbound p) j)%R).
Proof.
  intros HN Hfits Hx0.
  destruct (Solve_setup_run N indeterminate x0 HN Hfits Hx0)
    as [p [Hrun [[Hv [Hb Hz]] [[Hl [Hu [Hstate [Hsteer Hacc]]]] _]]]].
  exists p. rewrite (n_vars_eq N HN Hfits). split; [assumption |].
  assert (Hcases : forall j, 0 <= j < 8 * N - 2 ->
            0 <= j < 6 * N \/ 6 * N <= j < 7 * N - 1
            \/ 7 * N - 1 <= j < 8 * N - 2) by (intros; lia).
  split.
  - intros j Hj. destruct (Hcases j Hj) as [H | [H | H]].
    + destruct (Hstate j H) as [-> ->]. lra.
    + destruct (Hsteer j H) as [-> ->]. lra.
    + destruct (Hacc j H) as [-> ->]. lra.
  - intros Hx j Hj. destruct (Hcases j Hj) as [H | [H | H]].
    + destruct (Hstate j H) as [-> ->].
      destruct (block_start_dec N j) as [[b [Hb' ->]] | Hother].
      * rewrite (Hb b Hb'). now apply Hx.
      * rewrite Hz by (lia || assumption). lra.
    + destruct (Hsteer j H) as [-> ->].
      rewrite Hz; [lra | lia |]. intros b Hb'. block b; lia.
    + destruct (Hacc j H) as [-> ->].
      rewrite Hz; [lra | lia |]. intros b Hb'. block b; lia.
Qed.

Lemma Solve_start_within_bounds_witness :
  exists p, Solve_setup Baseline.N 0 [0; 0; 0; 10; 1; 2]%R = Ok p
    /\ (at_index (problem.vars_lowerbound p) 75
        <= at_index (problem.vars p) 75
        <= at_index (problem.vars_upperbound p) 75)%R.
Proof.
  destruct (Solve_start_within_bounds Baseline.N 0 [0; 0; 0; 10; 1; 2]%R)
    as [p [Hrun [_ Hwithin]]].
  - unfold Baseline.N. lia.
  - exact horizon_fits_baseline.
  - unfold size. simpl. lia.
  - exists p. split; [assumption |]. apply Hwithin.
    + intros b Hb. block b; unfold at_index; simpl; lra.
    + split; [apply Z.leb_le | apply Z.ltb_lt]; reflexivity.
Defined.

(** X10. No entry of a vector that [MPC::Solve] hands to the solver keeps
    what the vector held when it was allocated: the starting point and
    the four bound vectors do not depend on it. *)
Theorem Solve_setup_initialises_everything (N : Z) (indeterminate other : R)
    (x0 : vector) :
  2 <= N -> horizon_fits N -> 6 <= size x0 ->
  returns_to_caller (Solve_setup N indeterminate x0)
  /\ Solve_setup N indeterminate x0 = Solve_setup N other x0.
Proof.
  intros HN Hfits Hx0.
  destruct (Solve_setup_run N indeterminate x0 HN Hfits Hx0)
    as [p [Hrun [[Hv Hvs] [[Hl [Hu [Hstate [Hsteer Hacc]]]]
                            [Hcl [Hcu [Hcls Hcus]]]]]]].
  destruct (Solve_setup_run N other x0 HN Hfits Hx0)
    as [p' [Hrun' [[Hv' Hvs'] [[Hl' [Hu' [Hstate' [Hsteer' Hacc']]]]
                               [Hcl' [Hcu' [Hcls' Hcus']]]]]]].
  split; [exists p; assumption |].
  rewrite Hrun, Hrun'. f_equal.
  assert (Hcases : forall j, 0 <= j < 8 * N - 2 ->
            0 <= j < 6 * N \/ 6 * N <= j < 7 * N - 1
            \/ 7 * N - 1 <= j < 8 * N - 2) by (intros; lia).
  destruct p as [v l u cl cu]. destruct p' as [v' l' u' cl' cu'].
  cbn [problem.vars problem.vars_lowerbound problem.vars_upperbound
       problem.constraints_lowerbound problem.constraints_upperbound] in *.
  assert (Ev : v = v') by (apply (seeded_ext N x0); [lia | assumption ..]).
  assert (Ecl : cl = cl') by (apply (seeded_ext N x0); [lia | assumption ..]).
  assert (Ecu : cu = cu') by (apply (seeded_ext N x0); [lia | assumption ..]).
  assert (El : l = l').
  { apply vector_ext; [lia |]. intros j Hj.
    destruct (Hcases j ltac:(lia)) as [H | [H | H]].
    - destruct (Hstate j H) as [-> _]. destruct (Hstate' j H) as [-> _].
      reflexivity.
    - destruct (Hsteer j H) as [-> _]. destruct (Hsteer' j H) as [-> _].
      reflexivity.
    - destruct (Hacc j H) as [-> _]. destruct (Hacc' j H) as [-> _].
      reflexivity. }
  assert (Eu : u = u').
  { apply vector_ext; [lia |]. intros j Hj.
    destruct (Hcases j ltac:(lia)) as [H | [H | H]].
    - destruct (Hstate j H) as [_ ->]. destruct (Hstate' j H) as [_ ->].
      reflexivity.
    - destruct (Hsteer j H) as [_ ->]. destruct (Hsteer' j H) as [_ ->].
      reflexivity.
    - destruct (Hacc j H) as [_ ->]. destruct (Hacc' j H) as [_ ->].
      reflexivity. }
  now subst.
Qed.

Lemma Solve_setup_initialises_everything_witness :
  Solve_setup Baseline.N 0 [0; 0; 0; 10; 1; 2]%R
  = Solve_setup Baseline.N 7 [0; 0; 0; 10; 1; 2]%R.
Proof.
  apply (Solve_setup_initialises_everything Baseline.N 0 7
           [0; 0; 0; 10; 1; 2]%R).
  - unfold Baseline.N. lia.
  - exact horizon_fits_baseline.
  - unfold size. simpl. lia.
Defined.

Lemma Solve_setup_short_state (N : Z) (indeterminate : R) (x0 : vector) :
  size x0 < 6 -> Solve_setup N indeterminate x0 = OutOfRange "x0" (size x0).
Proof.
  intros H. unfold Solve_setup. pose proof (size_nonneg x0) as Hnn.
  assert (Hlen : size x0 = 0 \/ size x0 = 1 \/ size x0 = 2 \/ size x0 = 3
                 \/ size x0 = 4 \/ size x0 = 5) by lia.
  destruct Hlen as [E | [E | [E | [E | [E | E]]]]]; rewrite E.
  - rewrite (vget_out "x0" x0 0) by lia. reflexivity.
  - rewrite (vget_ok "x0" x0 0) by lia. cbn [bind].
    rewrite (vget_out "x0" x0 1) by lia. reflexivity.
  - rewrite (vget_ok "x0" x0 0), (vget_ok "x0" x0 1) by lia. cbn [bind].
    rewrite (vget_out "x0" x0 2) by lia. reflexivity.
  - rewrite (vget_ok "x0" x0 0), (vget_ok "x0" x0 1), (vget_ok "x0" x0 2)
      by lia. cbn [bind].
    rewrite (vget_out "x0" x0 3) by lia. reflexivity.
  - rewrite (vget_ok "x0" x0 0), (vget_ok "x0" x0 1), (vget_ok "x0" x0 2),
      (vget_ok "x0" x0 3) by lia. cbn [bind].
    rewrite (vget_out "x0" x0 4) by lia. reflexivity.
  - rewrite (vget_ok "x0" x0 0), (vget_ok "x0" x0 1), (vget_ok "x0" x0 2),
      (vget_ok "x0" x0 3), (vget_ok "x0" x0 4) by lia. cbn [bind].
    rewrite (vget_out "x0" x0 5) by lia. reflexivity.
Qed.

(** X11. A state of fewer than six components stops [MPC::Solve] on the
    read of the first missing component, whatever the horizon: nothing is
    built and the solver is not called. *)
Theorem Solve_needs_six_components (N : Z) (dt ref_cte ref_epsi ref_v : R)
    (indeterminate : R) (ipopt_solve : solver)
    (x0 coeffs mpc_x mpc_y : vector) :
  size x0 < 6 ->
  Solve N dt ref_cte ref_epsi ref_v indeterminate ipopt_solve
    x0 coeffs mpc_x mpc_y
  = OutOfRange "x0" (size x0).
Proof.
  intros H. unfold Solve. now rewrite Solve_setup_short_state.
Qed.

Lemma Solve_needs_six_components_witness :
  Solve Baseline.N Baseline.dt Baseline.ref_cte Baseline.ref_epsi
    Baseline.ref_v 0 echo_solver [0; 0; 0; 10]%R [1; 2; 3; 4]%R [] []
  = OutOfRange "x0" 4.
Proof.
  apply (Solve_needs_six_components Baseline.N Baseline.dt Baseline.ref_cte
           Baseline.ref_epsi Baseline.ref_v 0 echo_solver
           [0; 0; 0; 10]%R [1; 2; 3; 4]%R [] []).
  unfold size. simpl. lia.
Defined.

(** ** Further properties of [transform_map_coord] *)

(** X12. The transform keeps distances: between any two waypoints, and
    from the vehicle, which it moves to the origin. *)
Theorem transform_map_coord_keeps_distances (xvals yvals : vector)
    (vehicle_x vehicle_y vehicle_theta : R) :
  size yvals = size xvals ->
  exists tx ty,
    transform_map_coord xvals yvals vehicle_x vehicle_y vehicle_theta
    = Ok (tx, ty)
    /\ (forall i j, 0 <= i < size xvals -> 0 <= j < size xvals ->
          ((at_index tx i - at_index tx j) ^ 2
           + (at_index ty i - at_index ty j) ^ 2
           = (at_index xvals i - at_index xvals j) ^ 2
             + (at_index yvals i - at_index yvals j) ^ 2)%R)
    /\ (forall i, 0 <= i < size xvals ->
          ((at_index tx i) ^ 2 + (at_index ty i) ^ 2
           = (at_index xvals i - vehicle_x) ^ 2
             + (at_index yvals i - vehicle_y) ^ 2)%R).
Proof.
  intros Hsame.
  rewrite (transform_map_coord_run xvals yvals vehicle_x vehicle_y
             vehicle_theta Hsame).
  pose proof (unit_circle vehicle_theta) as Hunit.
  set (c := cos (vehicle_theta - M_PI / 2)) in *.
  set (s := sin (vehicle_theta - M_PI / 2)) in *.
  eexists. eexists. split; [reflexivity |]. split.
  - intros i j Hi Hj. rewrite !at_index_map_range by assumption.
    replace ((- (at_index xvals i - vehicle_x) * s
              + (at_index yvals i - vehicle_y) * c
              - (- (at_index xvals j - vehicle_x) * s
                 + (at_index yvals j - vehicle_y) * c)) ^ 2
             + (- (at_index xvals i - vehicle_x) * c
                - (at_index yvals i - vehicle_y) * s
                - (- (at_index xvals j - vehicle_x) * c
                   - (at_index yvals j - vehicle_y) * s)) ^ 2)%R
      with (((at_index xvals i - at_index xvals j) ^ 2
             + (at_index yvals i - at_index yvals j) ^ 2)
            * (s * s + c * c))%R by ring.
    rewrite Hunit. ring.
  - intros i Hi. rewrite !at_index_map_range by assumption.
    replace ((- (at_index xvals i - vehicle_x) * s
              + (at_index yvals i - vehicle_y) * c) ^ 2
             + (- (at_index xvals i - vehicle_x) * c
                - (at_index yvals i - vehicle_y) * s) ^ 2)%R
      with (((at_index xvals i - vehicle_x) ^ 2
             + (at_index yvals i - vehicle_y) ^ 2)
            * (s * s + c * c))%R by ring.
    rewrite Hunit. ring.
Qed.

Lemma transform_map_coord_keeps_distances_witness :
  exists tx ty,
    transform_map_coord [-32.16173; -43.49173]%R [113.361; 105.941]%R
      (-40.62) 108.73 3.733651
    = Ok (tx, ty)
    /\ ((at_index tx 0) ^ 2 + (at_index ty 0) ^ 2
        = (-32.16173 - -40.62) ^ 2 + (113.361 - 108.73) ^ 2)%R.
Proof.
  destruct (transform_map_coord_keeps_distances
              [-32.16173; -43.49173]%R [113.361; 105.941]%R
              (-40.62) 108.73 3.733651)
    as [tx [ty [Hrun [_ Horigin]]]].
  - reflexivity.
  - exists tx, ty. split; [assumption |]. apply (Horigin 0).
    unfold size. simpl. lia.
Defined.



(** X14. With fewer ordinates than abscissas the transform stops on the
    read of the first missing ordinate. *)
Theorem transform_map_coord_missing_ordinate (xvals yvals : vector)
    (vehicle_x vehicle_y vehicle_theta : R) :
  size yvals < size xvals ->
  transform_map_coord xvals yvals vehicle_x vehicle_y vehicle_theta
  = OutOfRange "yvals" (size yvals).
Proof.
  intros Hshort. unfold transform_map_coord. cbv zeta.
  pose proof (size_nonneg yvals) as Hnn.
  apply (for_loop_stops (fun _ _ => True) 0 (size yvals)).
  - lia.
  - exact I.
  - intros j [tx ty] Hj _. unfold transform_point.
    rewrite !vget_ok by lia. cbn [bind]. eexists. split; [reflexivity | exact I].
  - intros [tx ty] _. unfold transform_point.
    rewrite vget_ok by lia. cbn [bind].
    rewrite vget_out by lia. reflexivity.
Qed.

Lemma transform_map_coord_missing_ordinate_witness :
  transform_map_coord [1; 2; 3]%R [4; 5]%R 0 0 0 = OutOfRange "yvals" 2.
Proof.
  apply (transform_map_coord_missing_ordinate [1; 2; 3]%R [4; 5]%R 0 0 0).
  unfold size. simpl. lia.
Defined.

(** ** Further properties of [polyfit] *)

Lemma polyfit_size_mismatch (indeterminate : R)
    (householderQr_solve : matrix -> vector -> vector)
    (xvals yvals : vector) (order : Z) :
  size xvals <> size yvals ->
  polyfit indeterminate householderQr_solve xvals yvals order
  = AssertionFailed "xvals.size() == yvals.size()".
Proof.
  intros H. unfold polyfit.
  destruct (Z.eqb_spec (size xvals) (size yvals)) as [E | _];
    [contradiction | reflexivity].
Qed.

Lemma matrix_ext (A B : matrix) (r c : Z) :
  shape A r c -> shape B r c ->
  (forall j k, 0 <= j < r -> 0 <= k < c -> entry A j k = entry B j k) ->
  A = B.
Proof.
  intros [HrA HcA] [HrB HcB] Hentries. unfold rows, entry in *.
  unfold matrix, vector in *.
  apply (nth_ext _ _ [] []); [lia |].
  intros n Hn.
  pose proof (HcA (Z.of_nat n) ltac:(lia)) as Ha.
  pose proof (HcB (Z.of_nat n) ltac:(lia)) as Hb.
  rewrite Nat2Z.id in Ha, Hb.
  apply vector_ext; [exact (eq_trans Ha (eq_sym Hb)) |].
  intros k Hk.
  assert (Hk' : 0 <= k < c) by (rewrite <- Ha; exact Hk).
  pose proof (Hentries (Z.of_nat n) k ltac:(lia) Hk') as H.
  now rewrite Nat2Z.id in H.
Qed.

Lemma vandermonde_unique (A B : matrix) (xvals : vector) (order : Z) :
  vandermonde A xvals order -> vandermonde B xvals order -> A = B.
Proof.
  intros [HsA HeA] [HsB HeB].
  apply (matrix_ext A B (size xvals) (order + 1)); try assumption.
  intros j k Hj Hk. rewrite HeA, HeB by lia. reflexivity.
Qed.

(** X15. [polyfit] returns exactly when there are as many ordinates as
    abscissas and the order is at least one and less than the number of
    points; so it never returns for fewer than two points. *)
Theorem polyfit_returns_iff (indeterminate : R)
    (householderQr_solve : matrix -> vector -> vector)
    (xvals yvals : vector) (order : Z) :
  returns_to_caller
    (polyfit indeterminate householderQr_solve xvals yvals order)
  <-> size xvals = size yvals /\ 1 <= order <= size xvals - 1.
Proof.
  split.
  - intros [c Hrun].
    destruct (Z.eq_dec (size xvals) (size yvals)) as [Hsame | Hdiff].
    + split; [assumption |].
      destruct (Z_le_dec 1 order) as [H1 |];
        [destruct (Z_le_dec order (size xvals - 1)) as [H2 |] |];
        try lia;
        rewrite polyfit_invalid in Hrun by (assumption || lia);
        discriminate.
    + rewrite polyfit_size_mismatch in Hrun by assumption. discriminate.
  - intros [Hsame Horder].
    destruct (polyfit_valid indeterminate householderQr_solve xvals yvals
                order Hsame Horder) as [A [Hrun _]].
    eexists. exact Hrun.
Qed.

(** X16. No entry of the matrix that [polyfit] hands to the solver keeps
    what the matrix held when it was allocated: the result does not
    depend on it. *)
Theorem polyfit_initialises_matrix (indeterminate other : R)
    (householderQr_solve : matrix -> vector -> vector)
    (xvals yvals : vector) (order : Z) :
  polyfit indeterminate householderQr_solve xvals yvals order
  = polyfit other householderQr_solve xvals yvals order.
Proof.
  destruct (Z.eq_dec (size xvals) (size yvals)) as [Hsame | Hdiff].
  - destruct (Z_le_dec 1 order) as [H1 | H1];
      [destruct (Z_le_dec order (size xvals - 1)) as [H2 | H2] |].
    + destruct (polyfit_valid indeterminate householderQr_solve xvals yvals
                  order Hsame ltac:(lia)) as [A [Hrun HA]].
      destruct (polyfit_valid other householderQr_solve xvals yvals
                  order Hsame ltac:(lia)) as [B [Hrun' HB]].
      rewrite Hrun, Hrun'.
      now rewrite (vandermonde_unique A B xvals order HA HB).
    + now rewrite !polyfit_invalid by (assumption || lia).
    + now rewrite !polyfit_invalid by (assumption || lia).
  - now rewrite !polyfit_size_mismatch by assumption.
Qed.

(** X17. The system of [polyfit] and [polyeval] agree on the order of the
    coefficients: row [j] of the matrix that [polyfit] hands to the
    solver, times any column of [order + 1] coefficients, is the value of
    [polyeval] for these coefficients at [xvals(j)]. Coefficients that
    solve the system without residual therefore pass through the
    points. *)
Theorem polyfit_rows_are_polyeval (indeterminate : R)
    (householderQr_solve : matrix -> vector -> vector)
    (xvals yvals : vector) (order : Z) :
  size xvals = size yvals -> 1 <= order <= size xvals - 1 ->
  exists A,
    polyfit indeterminate householderQr_solve xvals yvals order
    = Ok (householderQr_solve A yvals)
    /\ forall c j, size c = order + 1 -> 0 <= j < size xvals ->
         exists y, polyeval c (at_index xvals j) = Ok y
           /\ y = row_times A j c (order + 1).
Proof.
  intros Hsame Horder.
  destruct (polyfit_valid indeterminate householderQr_solve xvals yvals
              order Hsame Horder) as [A [Hrun [_ Hentries]]].
  exists A. split; [assumption |].
  intros c j Hc Hj.
  destruct (polyeval_run c (at_index xvals j)) as [y [Hy ->]].
  exists (sum_upto (Z.to_nat (size c))
            (fun i => at_index c i * at_index xvals j ^ Z.to_nat i)%R).
  split; [assumption |].
  unfold row_times. rewrite Hc. apply sum_upto_ext.
  intros k Hk. rewrite Hentries by lia. ring.
Qed.

Lemma polyfit_rows_are_polyeval_witness :
  exists A,
    polyfit 0 (fun _ yvals => yvals) [1; 2; 3]%R [1; 4; 9]%R 2
    = Ok A
    /\ A = [1; 4; 9]%R.
Proof.
  destruct (polyfit_rows_are_polyeval 0 (fun _ yvals => yvals)
              [1; 2; 3]%R [1; 4; 9]%R 2) as [A [Hrun _]].
  - reflexivity.
  - unfold size. simpl. lia.
  - exists [1; 4; 9]%R. split; [exact Hrun | reflexivity].
Defined.

(** ** Properties of [main] *)




(** Lines 364-367 copy the waypoints. *)
Lemma copy_loop (next_x next_y a b : vector) :
  size next_y = size next_x -> size a = size next_x -> size b = size next_x ->
  for_loop 0 (size next_x) (copy_point next_x next_y) (a, b)
  = Ok (next_x, next_y).
Proof.
  intros Hy Ha Hb.
  destruct (for_loop_invariant
              (fun i (p : vector * vector) =>
                 size (fst p) = size next_x /\ size (snd p) = size next_x
                 /\ forall j, 0 <= j < i ->
                      at_index (fst p) j = at_index next_x j
                      /\ at_index (snd p) j = at_index next_y j)
              0 (size next_x) (copy_point next_x next_y) (a, b))
    as [[ptsx ptsy] [Hrun [Hsx [Hsy Hentries]]]].
  - apply size_nonneg.
  - cbn [fst snd]. split; [assumption |]. split; [assumption |].
    intros j Hj. lia.
  - intros i [pa pb] Hi [Hpa [Hpb Hold]]. cbn [fst snd] in *.
    unfold copy_point.
    rewrite (vget_ok "next_x") by lia. cbn [bind].
    rewrite (vset_ok "ptsx") by lia. cbn [bind].
    rewrite (vget_ok "next_y") by lia. cbn [bind].
    rewrite (vset_ok "ptsy") by lia. cbn [bind].
    eexists. split; [reflexivity |]. cbn [fst snd].
    rewrite !size_list_update.
    split; [assumption |]. split; [assumption |].
    intros j Hj. destruct (Z.eq_dec j i) as [-> | Hne].
    + rewrite !at_index_update_same by lia. split; reflexivity.
    + rewrite !at_index_update_other by lia. apply Hold. lia.
  - cbn [fst snd] in *. rewrite Hrun. f_equal. f_equal.
    + apply vector_ext; [assumption |]. intros j Hj. apply Hentries. lia.
    + apply vector_ext; [lia |]. intros j Hj. apply Hentries. lia.
Qed.

Section Main_facts.

Variable N : Z.
Variable dt : R.
Variables ref_cte ref_epsi ref_v : R.
Variable indeterminate : R.
Variable ipopt_solve : solver.
Variable householderQr_solve : matrix -> vector -> vector.

Hypothesis N_ge : 2 <= N.
Hypothesis N_fits : horizon_fits N.

(** The solver gives as many values as there are variables. *)
Hypothesis solution_size :
  forall o xi xl xu gl gu e,
    size (solve_result.x (ipopt_solve o xi xl xu gl gu e)) = size xi.

(** The least-squares solve gives the four coefficients of a cubic, or
    more. *)
Hypothesis fit_size : forall A y, 4 <= size (householderQr_solve A y).

Let solve (state coeffs : vector) : outcome (vector * vector * vector) :=
  Solve N dt ref_cte ref_epsi ref_v indeterminate ipopt_solve
    state coeffs [] [].

(** The lines of [main] before its loop. *)
Lemma main_prologue :
  exists coeffs,
    4 <= size coeffs
    /\ main N dt ref_cte ref_epsi ref_v indeterminate ipopt_solve
         householderQr_solve
       = (s <- for_loop 0 iters
                 (cycle N dt ref_cte ref_epsi ref_v indeterminate ipopt_solve
                    coeffs)
                 ([0; 0; 0; 10; at_index coeffs 0 - 0;
                   - atan (at_index coeffs 1 + 2 * at_index coeffs 2 * 0
                           + 3 * at_index coeffs 3 * (0 * 0))]%R,
                  series.make [0%R] [0%R] [0%R] [10%R]
                    [(at_index coeffs 0 - 0)%R]
                    [(- atan (at_index coeffs 1 + 2 * at_index coeffs 2 * 0
                              + 3 * at_index coeffs 3 * (0 * 0)))%R]
                    [] [] []) ;;
          Ok (snd s)).
Proof.
  unfold main. cbv zeta.
  rewrite transform_map_coord_run by reflexivity. cbn [bind].
  set (tx := map _ (range _)). set (ty := map _ (range _)).
  assert (Htx : size tx = 6) by (apply size_map_range; unfold size; simpl; lia).
  assert (Hty : size ty = 6) by (apply size_map_range; unfold size; simpl; lia).
  rewrite copy_loop
    by (rewrite ?Htx, ?Hty; try reflexivity; apply size_repeat; lia).
  cbn [bind].
  destruct (polyfit_valid indeterminate householderQr_solve tx ty 3)
    as [A [Hfit _]]; [lia | lia |].
  rewrite Hfit. cbn [bind].
  set (coeffs := householderQr_solve A ty).
  pose proof (fit_size A ty) as Hcoeffs. fold coeffs in Hcoeffs.
  destruct (polyeval_at_zero_run coeffs) as [p0 [Hp0 ->]].
  rewrite Hp0. cbn [bind].
  rewrite !(vget_ok "coeffs") by lia. cbn [bind].
  exists coeffs. split; [assumption | reflexivity].
Qed.




End Main_facts.



(** X19. With a solver that reports a failure, [main] ends the process
    with the status [EXIT_FAILURE] in its first cycle: it plots no
    series. *)
Theorem main_exits_when_solver_fails (N : Z) (dt ref_cte ref_epsi ref_v : R)
    (indeterminate : R) (ipopt_solve : solver)
    (householderQr_solve : matrix -> vector -> vector) :
  2 <= N -> horizon_fits N ->
  (forall o xi xl xu gl gu e,
     size (solve_result.x (ipopt_solve o xi xl xu gl gu e)) = size xi) ->
  (forall A y, 4 <= size (householderQr_solve A y)) ->
  (forall o xi xl xu gl gu e,
     solve_result.status (ipopt_solve o xi xl xu gl gu e) <> success) ->
  main N dt ref_cte ref_epsi ref_v indeterminate ipopt_solve
    householderQr_solve
  = Exit EXIT_FAILURE.
Proof.
  intros HN Hfits Hsize Hfit Hfail.
  destruct (main_prologue N dt ref_cte ref_epsi ref_v indeterminate
              ipopt_solve householderQr_solve Hfit)
    as [coeffs [Hcoeffs Hmain]].
  rewrite Hmain. rewrite for_loop_first by (unfold iters; lia).
  unfold cycle at 1. cbv zeta.
  set (state := [0; 0; 0; 10; (at_index coeffs 0 - 0);
                 - atan (at_index coeffs 1 + 2 * at_index coeffs 2 * 0
                         + 3 * at_index coeffs 3 * (0 * 0))]%R).
  assert (Hstate : 6 <= size state) by (unfold size; simpl; lia).
  destruct (Solve_setup_run N indeterminate state HN Hfits Hstate)
    as [p [Hsetup [[Hv _] _]]].
  rewrite (Solve_failure N dt ref_cte ref_epsi ref_v indeterminate
             ipopt_solve state coeffs [] [] p HN Hfits Hsetup).
  - reflexivity.
  - unfold solve_problem. rewrite Hsize, Hv. symmetry.
    now apply n_vars_eq.
  - unfold solve_problem. apply Hfail.
Qed.

Lemma main_exits_when_solver_fails_witness :
  main Baseline.N Baseline.dt Baseline.ref_cte Baseline.ref_epsi
    Baseline.ref_v 0 stalled_solver flat_fit
  = Exit EXIT_FAILURE.
Proof.
  apply (main_exits_when_solver_fails Baseline.N Baseline.dt Baseline.ref_cte
           Baseline.ref_epsi Baseline.ref_v 0 stalled_solver flat_fit).
  - unfold Baseline.N. lia.
  - exact horizon_fits_baseline.
  - intros. reflexivity.
  - intros. unfold flat_fit, size. simpl. lia.
  - intros. discriminate.
Defined.

(** ** The reference curve in the evaluator *)

(** X20. For the four coefficients of a fit of order three, the value of
    the reference curve in the cte residual of every step is the value
    that [polyeval] gives at the x of the step: the evaluator and [main],
    which takes its cross track error from [polyeval], use one curve. *)
Theorem FG_eval_curve_is_polyeval (N : Z) (dt ref_cte ref_epsi ref_v : R)
    (coeffs fg vars : vector) :
  2 <= N -> horizon_fits N ->
  size vars = n_vars N -> size fg = 1 + n_constraints N ->
  size coeffs = 4 ->
  exists g, FG_eval N dt ref_cte ref_epsi ref_v coeffs fg vars = Ok g
    /\ forall i, 0 <= i < N - 1 ->
         exists y, polyeval coeffs (x_ N vars i) = Ok y
           /\ at_index g (1 + constraint_entry N 4 (i + 1))
              = (cte_ N vars (i + 1)
                 - ((y - y_ N vars i)
                    + v_ N vars i * sin (epsi_ N vars i) * dt))%R.
Proof.
  intros HN Hfits Hvars Hfg Hc.
  destruct (FG_eval_run N dt ref_cte ref_epsi ref_v coeffs vars HN Hfits
              Hvars fg ltac:(lia) Hfg) as [g [Hrun [_ [_ [_ Hres]]]]].
  exists g. split; [assumption |]. intros i Hi.
  destruct (polyeval_cubic coeffs (x_ N vars i) Hc) as [y [Hy ->]].
  exists (curve coeffs (x_ N vars i)). split; [assumption |].
  rewrite (Hres 4 i) by lia. reflexivity.
Qed.

Lemma FG_eval_curve_is_polyeval_witness :
  exists g,
    FG_eval 2 0.05 0 0 40 [1; 2; 3; 4]%R (repeat 0%R 13) (repeat 1%R 14) = Ok g
    /\ exists y, polyeval [1; 2; 3; 4]%R (x_ 2 (repeat 1%R 14) 0) = Ok y.
Proof.
  destruct (FG_eval_curve_is_polyeval 2 0.05 0 0 40 [1; 2; 3; 4]%R
              (repeat 0%R 13) (repeat 1%R 14)) as [g [Hrun Hcte]].
  - lia.
  - exact horizon_fits_2.
  - reflexivity.
  - reflexivity.
  - reflexivity.
  - exists g. split; [assumption |].
    destruct (Hcte 0) as [y [Hy _]]; [lia |]. exists y. exact Hy.
Defined.

(** X21. The reference heading in the epsi residual of every step is the
    arc tangent of the derivative, at the x of the step, of the cubic
    whose coefficients, lowest degree first, are the first four entries
    of [coeffs]. *)
Theorem FG_eval_heading_is_tangent (N : Z) (dt ref_cte ref_epsi ref_v : R)
    (coeffs fg vars : vector) :
  2 <= N -> horizon_fits N ->
  size vars = n_vars N -> size fg = 1 + n_constraints N ->
  4 <= size coeffs ->
  exists g, FG_eval N dt ref_cte ref_epsi ref_v coeffs fg vars = Ok g
    /\ forall i, 0 <= i < N - 1 ->
         exists slope0 : R,
           derivable_pt_lim
             (fun x => at_index coeffs 0 + at_index coeffs 1 * x
                       + at_index coeffs 2 * x ^ 2
                       + at_index coeffs 3 * x ^ 3)%R
             (x_ N vars i) slope0
           /\ at_index g (1 + constraint_entry N 5 (i + 1))
              = (epsi_ N vars (i + 1)
                 - ((psi_ N vars i - atan slope0)
                    + v_ N vars i * delta_ N vars i / Lf * dt))%R.
Proof.
  intros HN Hfits Hvars Hfg Hc.
  destruct (FG_eval_run N dt ref_cte ref_epsi ref_v coeffs vars HN Hfits
              Hvars fg Hc Hfg) as [g [Hrun [_ [_ [_ Hres]]]]].
  exists g. split; [assumption |]. intros i Hi.
  exists (slope coeffs (x_ N vars i)).
  split; [exact (slope_is_derivative coeffs (x_ N vars i)) |].
  rewrite (Hres 5 i) by lia. reflexivity.
Qed.

Lemma FG_eval_heading_is_tangent_witness :
  returns_to_caller
    (FG_eval 2 0.05 0 0 40 [1; 2; 3; 4]%R (repeat 0%R 13) (repeat 1%R 14)).
Proof.
  destruct (FG_eval_heading_is_tangent 2 0.05 0 0 40 [1; 2; 3; 4]%R
              (repeat 0%R 13) (repeat 1%R 14)) as [g [Hrun _]].
  - lia.
  - exact horizon_fits_2.
  - reflexivity.
  - reflexivity.
  - unfold size. simpl. lia.
  - exists g. exact Hrun.
Defined.
